(** * Strategy synchronisation of beefy-cowllector ([scripts/syncStrats.ts])

    A shallow embedding of the reconciliation script: the hit log ([Hits]),
    the per-chain reconciler ([ChainStratManager.SyncVaults]) and the
    coordinator ([main]) with its decommission sweep and its two conditional
    file writes.

    Conventions of the embedding.
    - A JavaScript array that may have holes ([delete a[i]] leaves one and
      keeps the length) is a [list (option _)]; [None] is a hole.
    - An entry object lives in exactly one slot of [stratsToHarvest] and never
      moves, so a reference to the object is the number of its slot.
    - [Set<string>] is a [gset string]; the [hits] object is the ordered list
      of the records stored in it, read through [Hits.keys] in the order
      JavaScript gives to the keys of an object.
    - [lastHarvest] is an integer time stamp, a [Z].
    - The interfaces [IVault], [IStratToHrvst] and [IChain] come from
      [../interfaces]; their fields are the ones the script reads and writes.
    - [estimateGas] comes from [../utils/harvestHelpers] and talks to a
      node; the script looks only at whether its promise is fulfilled, and
      that outcome is a parameter of the coordinator.
    - Console output is left out. *)

From stdpp Require Import gmap strings list sorting.

Open Scope string_scope.
Open Scope list_scope.
Open Scope Z_scope.

(** ** Data model *)

Module IVault.
Record t := mk {
  id : string;
  chain : string;
  earnContractAddress : string;
  earnedToken : string;
  strategy : string;
  status : string;
  lastHarvest : Z }.
End IVault.

Module IStratToHrvst.
Record t := mk {
  id : string;
  chain : string;
  earnContractAddress : string;
  earnedToken : string;
  strategy : string;
  lastHarvest : Z;
  noOnChainHrvst : option bool }.

Definition set_noOnChainHrvst (b : bool) (s : t) : t :=
  mk (id s) (chain s) (earnContractAddress s) (earnedToken s) (strategy s)
     (lastHarvest s) (Some b).

Definition set_strategy (a : string) (s : t) : t :=
  mk (id s) (chain s) (earnContractAddress s) (earnedToken s) a
     (lastHarvest s) (noOnChainHrvst s).

Definition set_lastHarvest (n : Z) (s : t) : t :=
  mk (id s) (chain s) (earnContractAddress s) (earnedToken s) (strategy s)
     n (noOnChainHrvst s).
End IStratToHrvst.

Module IChain.
(** [vaultDenyList] is the export of [../gelato/<id>VaultDenyList.ts], which
    the constructor of [ChainStratManager] loads only when
    [hasOnChainHarvesting] is set.  An absent [hasOnChainHarvesting] (as in
    every entry of [data/chains.js]) is [false]. *)
Record t := mk {
  id : string;
  hasOnChainHarvesting : bool;
  vaultDenyList : gset string }.
End IChain.

Global Instance IStratToHrvst_eq_dec : EqDecision IStratToHrvst.t.
Proof. solve_decision. Defined.

(** ** The hit log *)

Inductive HitType :=
  | added
  | removed_inactive
  | removed_decomissioned
  | on_chain_harvest_switch
  | strategy_update.

Global Instance HitType_eq_dec : EqDecision HitType.
Proof. solve_decision. Defined.

(** [type: HitType | HitType[]] *)
Inductive HitTypes :=
  | One (t : HitType)
  | Many (ts : list HitType).

Record Hit := mkHit { hit_id : string; hit_type : HitTypes }.

Module Hits.
(** The object [hits: Record<string, Hit>], as the records the script has
    stored in it, in the order in which they were stored; the record stored
    under key [k] has [hit_id = k]. *)
Definition t := list Hit.

Definition empty : t := [].

(** The names for which a plain object answers with a property it inherits
    from [Object.prototype]. *)
Definition inherited_names : list string :=
  ["constructor"; "hasOwnProperty"; "isPrototypeOf"; "propertyIsEnumerable";
   "toLocaleString"; "toString"; "valueOf"; "__proto__";
   "__defineGetter__"; "__defineSetter__"; "__lookupGetter__"; "__lookupSetter__"].

Definition inherited (id : string) : bool := bool_decide (id ∈ inherited_names).

(** The record stored under [id]. *)
Fixpoint get (id : string) (h : t) : option Hit :=
  match h with
  | [] => None
  | x :: h' => if bool_decide (hit_id x = id) then Some x else get id h'
  end.

(** Mutation of the record stored under [id]. *)
Fixpoint update (id : string) (f : HitTypes → HitTypes) (h : t) : t :=
  match h with
  | [] => []
  | x :: h' =>
      if bool_decide (hit_id x = id) then mkHit (hit_id x) (f (hit_type x)) :: h'
      else x :: update id f h'
  end.

(** [add].  For an inherited name [this.hits[ id]] is the inherited function
    or object, which is truthy: the assignment or the [push] then goes to its
    [type] property and [this.hits] gets no record.  (With ["__proto__"] that
    property is [Object.prototype.type], and from then on ["type"] is an
    inherited name as well; the list does not follow this, so what is stated
    about a record being stored leaves the id ["type"] out, see [ordinary].) *)
Definition add (id : string) (type : HitType) (h : t) : t :=
  if bool_decide (id = "") then h
  else if inherited id then h
  else match get id h with
       | None => h ++ [mkHit id (One type)]
       | Some hit =>
           match hit_type hit with
           | One t0 => update id (λ _, Many [t0; type]) h
           | Many ts => update id (λ _, Many (ts ++ [type])) h
           end
       end.

(** An id under which [add] stores a record whatever has been added before. *)
Definition ordinary (id : string) : Prop :=
  id ≠ "" ∧ (id ∉ inherited_names) ∧ id ≠ "type".

Global Instance ordinary_dec id : Decision (ordinary id).
Proof. unfold ordinary. apply _. Defined.

(** An array index: the canonical decimal numeral of an integer below
    [2^32 - 1]. *)
Definition digit (c : Ascii.ascii) : option N :=
  let n := Ascii.N_of_ascii c in
  if bool_decide (48 ≤ n ∧ n ≤ 57)%N then Some (n - 48)%N else None.

Fixpoint digits (acc : N) (s : string) : option N :=
  match s with
  | EmptyString => Some acc
  | String c s' =>
      match digit c with
      | Some d => digits (10 * acc + d)%N s'
      | None => None
      end
  end.

Definition array_index (s : string) : option N :=
  match s with
  | EmptyString => None
  | String c s' =>
      if bool_decide (digit c = Some 0%N) && negb (bool_decide (s' = EmptyString)) then None
      else match digits 0%N s with
           | Some n => if bool_decide (n < 2 ^ 32 - 1)%N then Some n else None
           | None => None
           end
  end.

(** The keys that are array indices, in ascending order of the index:
    [insert_index] puts a key with its index into keys that are in that
    order, behind the keys whose index is not larger. *)
Fixpoint insert_index (k : string) (n : N) (l : list string) : list string :=
  match l with
  | [] => [k]
  | k' :: l' =>
      if bool_decide (n < default 0%N (array_index k'))%N then k :: l
      else k' :: insert_index k n l'
  end.

Definition index_keys (ids : list string) : list string :=
  foldl (λ acc k, match array_index k with
                  | Some n => insert_index k n acc
                  | None => acc
                  end) [] ids.

(** [Object.keys( hits.hits)]: the keys that are array indices in ascending
    order, then the other keys in the order in which they were created. *)
Definition keys (h : t) : list string :=
  index_keys (hit_id <$> h) ++ filter (λ k, array_index k = None) (hit_id <$> h).

(** [Object.keys( hits.hits).length] and [Object.values( hits.hits)] *)
Definition keys_length (h : t) : nat := length h.
Definition values (h : t) : list Hit := omap (λ k, get k h) (keys h).

(** The change kinds recorded for [id], oldest first. *)
Definition kinds (id : string) (h : t) : list HitType :=
  match get id h with
  | None => []
  | Some hit => match hit_type hit with One t0 => [t0] | Many ts => ts end
  end.
End Hits.

(** ** The per-chain reconciler *)

(** [Array.prototype.findIndex]; [None] is [NOT_FOUND]. The callback also
    sees the holes, as [undefined]. *)
Fixpoint findIndex {A} (p : A → bool) (l : list A) : option nat :=
  match l with
  | [] => None
  | x :: l' => if p x then Some 0%nat else S <$> findIndex p l'
  end.

(** [['eol', 'paused'].includes( status)] *)
Definition inactive (status : string) : bool :=
  bool_decide (status = "eol") || bool_decide (status = "paused").

(** Truthiness of the optional flag [strat?.noOnChainHrvst]. *)
Definition truthy (o : option bool) : bool := default false o.

(** The state one pass of [SyncVaults] works on: the three shared structures
    ([stratsToHarvest], [encountered], [hits]), the manager's own fields
    ([added], [removed], [notOnChainHarvest], with the entries held by
    reference) and the local [dirty]. *)
Record State := mkState {
  stratsToHarvest : list (option IStratToHrvst.t);
  encountered : gset string;
  hits : Hits.t;
  added_count : nat;
  removed_count : nat;
  notOnChainHarvest : list nat;
  dirty : bool }.

Definition with_strats (l : list (option IStratToHrvst.t)) (s : State) : State :=
  let '(mkState _ enc h a rm w d) := s in mkState l enc h a rm w d.
Definition with_dirty (s : State) : State :=
  let '(mkState l enc h a rm w _) := s in mkState l enc h a rm w true.
Definition with_hit (id : string) (k : HitType) (s : State) : State :=
  let '(mkState l enc h a rm w d) := s in mkState l enc (Hits.add id k h) a rm w d.
Definition with_encountered (id : string) (s : State) : State :=
  let '(mkState l enc h a rm w d) := s in mkState l ({[id]} ∪ enc) h a rm w d.
Definition with_added (s : State) : State :=
  let '(mkState l enc h a rm w d) := s in mkState l enc h (S a) rm w d.
Definition with_removed (s : State) : State :=
  let '(mkState l enc h a rm w d) := s in mkState l enc h a (S rm) w d.
Definition with_notOnChain (r : nat) (s : State) : State :=
  let '(mkState l enc h a rm w d) := s in mkState l enc h a rm (w ++ [r]) d.

(** Assignment to a field of the entry object held in slot [r]. *)
Definition modify (r : nat) (f : IStratToHrvst.t → IStratToHrvst.t) (s : State) : State :=
  with_strats (alter (fmap f) r (stratsToHarvest s)) s.

(** The object a reference points to. *)
Definition deref (r : nat) (s : State) : option IStratToHrvst.t :=
  mjoin (stratsToHarvest s !! r).

(** [this.denyOnChainHarvest], set by the constructor. *)
Definition denyOnChainHarvest (chain : IChain.t) : option (gset string) :=
  if IChain.hasOnChainHarvesting chain then Some (IChain.vaultDenyList chain) else None.

(** [this.chain.hasOnChainHarvesting && !this.denyOnChainHarvest?.has( vault.earnedToken)] *)
Definition onChainHarvest (chain : IChain.t) (vault : IVault.t) : bool :=
  IChain.hasOnChainHarvesting chain &&
  negb (match denyOnChainHarvest chain with
        | Some deny => bool_decide (IVault.earnedToken vault ∈ deny)
        | None => false
        end).

(** The callback's predicate of [findIndex]:
    [vault.strategy === strat?.strategy && vault.id === strat.id]. *)
Definition matches (vault : IVault.t) (strat : option IStratToHrvst.t) : bool :=
  match strat with
  | Some st => bool_decide (IVault.strategy vault = IStratToHrvst.strategy st)
               && bool_decide (IVault.id vault = IStratToHrvst.id st)
  | None => false
  end.

(** Lines 103-132: the part of the callback after the entry [r] has been
    found ([index = Some r]) or created ([index = None], [r] the new slot). *)
Definition route_and_update (chain : IChain.t) (vault : IVault.t)
    (index : option nat) (r : nat) (s : State) : State :=
  let onChain := onChainHarvest chain vault in
  let flag := truthy (deref r s ≫= IStratToHrvst.noOnChainHrvst) in
  let s1 :=
    if (if onChain then flag else IChain.hasOnChainHarvesting chain && negb flag)
    then match index with
         | Some _ =>
             with_hit (IVault.id vault) on_chain_harvest_switch
               (with_dirty (modify r (IStratToHrvst.set_noOnChainHrvst (negb onChain)) s))
         | None => modify r (IStratToHrvst.set_noOnChainHrvst (negb onChain)) s
         end
    else s in
  let s2 := if negb onChain then with_notOnChain r s1 else s1 in
  match index with
  | None => s2
  | Some _ =>
      let s3 :=
        if negb (bool_decide ((IStratToHrvst.strategy <$> deref r s2) = Some (IVault.strategy vault)))
        then with_hit (IVault.id vault) strategy_update
               (with_dirty (modify r (IStratToHrvst.set_strategy (IVault.strategy vault)) s2))
        else s2 in
      if match deref r s3 with
         | Some st => bool_decide (IStratToHrvst.lastHarvest st < IVault.lastHarvest vault)
         | None => false
         end
      then with_dirty (modify r (IStratToHrvst.set_lastHarvest (IVault.lastHarvest vault)) s3)
      else s3
  end.

(** The callback of [this.vaults.forEach] in [SyncVaults]. *)
Definition sync_vault (chain : IChain.t) (vault : IVault.t) (s : State) : State :=
  if negb (bool_decide (IChain.id chain = IVault.chain vault)) then s
  else
    let index := findIndex (matches vault) (stratsToHarvest s) in
    let strat := index ≫= λ i, deref i s in
    match strat with
    | None =>
        if inactive (IVault.status vault) then s
        else
          let new := IStratToHrvst.mk (IVault.id vault) (IVault.chain vault)
                       (IVault.earnContractAddress vault) (IVault.earnedToken vault)
                       (IVault.strategy vault) (IVault.lastHarvest vault) None in
          let r := length (stratsToHarvest s) in
          let s1 := with_strats (stratsToHarvest s ++ [Some new]) s in
          let s2 := with_hit (IVault.id vault) added
                      (with_encountered (IVault.id vault) (with_dirty (with_added s1))) in
          route_and_update chain vault index r s2
    | Some _ =>
        let r := default 0%nat index in
        if inactive (IVault.status vault)
        then with_hit (IVault.id vault) removed_inactive
               (with_dirty (with_removed (with_strats (<[r := None]> (stratsToHarvest s)) s)))
        else route_and_update chain vault index r (with_encountered (IVault.id vault) s)
    end.

(** [this.vaults.forEach( ...)]: the catalog is walked in order. *)
Definition forEach_vault (chain : IChain.t) (vaults : list IVault.t) (s : State) : State :=
  foldl (λ s vault, sync_vault chain vault s) s vaults.

(** [SyncVaults]: [let dirty = false], the pass, [return dirty].  The returned
    boolean is the [dirty] field of the result. *)
Definition SyncVaults (chain : IChain.t) (vaults : list IVault.t) (s : State) : State :=
  forEach_vault chain vaults
    (mkState (stratsToHarvest s) (encountered s) (hits s) (added_count s)
             (removed_count s) (notOnChainHarvest s) false).

(** ** The coordinator *)

(** What [main] shares between the chains: the strategy list, the set of
    encountered ids, the hit log, and its own [dirty]. *)
Record Coordinator := mkCoordinator {
  co_strats : list (option IStratToHrvst.t);
  co_encountered : gset string;
  co_hits : Hits.t;
  co_dirty : bool }.

(** [await FETCH( urlVaults)] followed by [response.json()]: the promise is
    rejected, or fulfilled with a response whose [ok] and [body] are read and
    whose JSON decoding yields the catalog or throws. *)
Inductive FetchResult :=
  | FetchRejected
  | Fetched (ok body : bool) (json : option (list IVault.t)).

(** [require( '../data/stratsToHrvst.json')]: the list, or an exception with
    its [code] property, if it has one. *)
Inductive RequireResult :=
  | Required (strats : list IStratToHrvst.t)
  | RequireThrew (code : option string).

(** The two files [main] may write. *)
Record Files := mkFiles {
  stratsSync_json : option (list Hit);
  stratsToHrvst_json : option (list IStratToHrvst.t) }.

Inductive Outcome :=
  | Aborted
  | Completed (c : Coordinator).

(** The decommission sweep of lines 210-216.  [forEach] does not call back on
    holes, and [delete stratsToHarvest[ index]] leaves a hole at the slot
    being visited. *)
Fixpoint sweep (enc : gset string) (l : list (option IStratToHrvst.t)) (h : Hits.t)
    : list (option IStratToHrvst.t) * Hits.t :=
  match l with
  | [] => ([], h)
  | None :: l' => let '(r, h') := sweep enc l' h in (None :: r, h')
  | Some strat :: l' =>
      if bool_decide (IStratToHrvst.id strat ∈ enc)
      then let '(r, h') := sweep enc l' h in (Some strat :: r, h')
      else let '(r, h') := sweep enc l' (Hits.add (IStratToHrvst.id strat) removed_decomissioned h)
           in (None :: r, h')
  end.

(** [stratsToHarvest.filter( strat => strat)] *)
Definition compact (l : list (option IStratToHrvst.t)) : list IStratToHrvst.t :=
  omap id l.

Section Coordinator.

(** [estimateGas] ([utils/harvestHelpers]) is a network call; [AddGasLimits]
    observes only whether its promise is fulfilled.  The outcome for the entry
    object referenced by slot [r] on a chain is a parameter. *)
Variable estimateGas : IChain.t → nat → bool.

(** The chains of [data/chains.js], in the order of [Object.values]. *)
Variable chains : list IChain.t.

(** [!!results.find( SettledPromiseFilled)] *)
Definition AddGasLimits (chain : IChain.t) (strats : list nat) : bool :=
  existsb (estimateGas chain) strats.

(** The callback mapped over the chains (lines 190-208).  Each callback runs
    [SyncVaults] to completion before it first awaits, so the passes follow
    one another in the order of the chains. *)
Definition run_chain (vaults : list IVault.t) (c : Coordinator) (chain : IChain.t)
    : Coordinator :=
  let stratManager :=
    SyncVaults chain vaults
      (mkState (co_strats c) (co_encountered c) (co_hits c) 0 0 [] false) in
  let dirty1 := co_dirty c || dirty stratManager in
  let dirty2 :=
    match notOnChainHarvest stratManager with
    | [] => dirty1
    | _ :: _ => dirty1 || AddGasLimits chain (notOnChainHarvest stratManager)
    end in
  mkCoordinator (stratsToHarvest stratManager) (encountered stratManager)
                (hits stratManager) dirty2.

(** Lines 185-208: all chains, from the loaded list. *)
Definition run_chains (vaults : list IVault.t) (strats : list IStratToHrvst.t)
    : Coordinator :=
  foldl (run_chain vaults) (mkCoordinator (Some <$> strats) ∅ Hits.empty false) chains.

Definition run_sweep (c : Coordinator) : Coordinator :=
  let '(l, h) := sweep (co_encountered c) (co_strats c) (co_hits c) in
  mkCoordinator l (co_encountered c) h (co_dirty c).

(** Lines 185-216. *)
Definition reconcile (vaults : list IVault.t) (strats : list IStratToHrvst.t)
    : Coordinator :=
  run_sweep (run_chains vaults strats).

Definition main (fetch : FetchResult) (load : RequireResult) : Outcome :=
  match fetch with
  | FetchRejected => Aborted
  | Fetched ok body json =>
      if negb (ok && body) then Aborted
      else match json with
           | None => Aborted
           | Some vaults =>
               match load with
               | Required strats => Completed (reconcile vaults strats)
               | RequireThrew code =>
                   if negb (bool_decide (code = Some "MODULE_NOT_FOUND")) then Aborted
                   else Completed (reconcile vaults [])
               end
           end
  end.

(** Lines 218-227: the files written at the end of a run. *)
Definition written (o : Outcome) : Files :=
  match o with
  | Aborted => mkFiles None None
  | Completed c =>
      mkFiles
        (if bool_decide (0 < Hits.keys_length (co_hits c))%nat
         then Some (Hits.values (co_hits c)) else None)
        (if co_dirty c then Some (compact (co_strats c)) else None)
  end.

(** The content of [data/stratsToHrvst.json] after a run that started with
    [load] as the result of reading it. *)
Definition persisted (load : RequireResult) (o : Outcome) : option (list IStratToHrvst.t) :=
  match stratsToHrvst_json (written o) with
  | Some l => Some l
  | None => match load with Required strats => Some strats | RequireThrew _ => None end
  end.

End Coordinator.

(** ** Auxiliary notions for the statements *)

(** No record is stored under the empty id. *)
Definition no_empty_id (h : Hits.t) : Prop := Forall (λ x, hit_id x ≠ "") h.

(** Whether the routing flag of an entry has to be switched (lines 106-107). *)
Definition switch_needed (chain : IChain.t) (vault : IVault.t) (st : IStratToHrvst.t) : bool :=
  if onChainHarvest chain vault then truthy (IStratToHrvst.noOnChainHrvst st)
  else IChain.hasOnChainHarvesting chain && negb (truthy (IStratToHrvst.noOnChainHrvst st)).

(** The entry after the routing decision. *)
Definition routed (chain : IChain.t) (vault : IVault.t) (st : IStratToHrvst.t) : IStratToHrvst.t :=
  if switch_needed chain vault st
  then IStratToHrvst.set_noOnChainHrvst (negb (onChainHarvest chain vault)) st
  else st.

(** The entry after the comparison of the harvest times. *)
Definition harvested (vault : IVault.t) (st : IStratToHrvst.t) : IStratToHrvst.t :=
  if bool_decide (IStratToHrvst.lastHarvest st < IVault.lastHarvest vault)
  then IStratToHrvst.set_lastHarvest (IVault.lastHarvest vault) st
  else st.

(** The entry created for a vault. *)
Definition entry_of (vault : IVault.t) : IStratToHrvst.t :=
  IStratToHrvst.mk (IVault.id vault) (IVault.chain vault)
    (IVault.earnContractAddress vault) (IVault.earnedToken vault)
    (IVault.strategy vault) (IVault.lastHarvest vault) None.

Definition worklist (chain : IChain.t) (vault : IVault.t) (r : nat) : list nat :=
  if onChainHarvest chain vault then [] else [r].

(** What may become of a slot of the strategy list: a hole stays a hole, an
    entry is deleted or stays the entry of the same vault on the same chain,
    with a harvest time that is not smaller. *)
Definition slot_le (a b : option IStratToHrvst.t) : Prop :=
  match a, b with
  | _, None => True
  | Some x, Some y =>
      IStratToHrvst.id x = IStratToHrvst.id y
      ∧ IStratToHrvst.chain x = IStratToHrvst.chain y
      ∧ IStratToHrvst.lastHarvest x ≤ IStratToHrvst.lastHarvest y
  | None, Some _ => False
  end.

Definition strats_le (l l' : list (option IStratToHrvst.t)) : Prop :=
  ∀ i a, l !! i = Some a → ∃ b, l' !! i = Some b ∧ slot_le a b.


(** The catalog fetch fails: the request is rejected, the response is not
    [ok] or has no [body], or its JSON cannot be decoded. *)
Definition fetch_failed (fetch : FetchResult) : Prop :=
  match fetch with
  | FetchRejected => True
  | Fetched ok body json => ok = false ∨ body = false ∨ json = None
  end.

(** What the next run reads from [data/stratsToHrvst.json]. *)
Definition load_after (load : RequireResult) (o : Outcome) : RequireResult :=
  match persisted load o with
  | Some l => Required l
  | None => RequireThrew (Some "MODULE_NOT_FOUND")
  end.

(** Two entries of a list that share chain and id. *)
Definition same_chain_id (a b : IStratToHrvst.t) : Prop :=
  IStratToHrvst.chain a = IStratToHrvst.chain b ∧ IStratToHrvst.id a = IStratToHrvst.id b.


(** Eligibility for on-chain harvesting in the words of the specification:
    the chain supports on-chain harvesting and the vault's [earnedToken] is
    not in the chain's deny-list. *)
Definition eligible (chain : IChain.t) (vault : IVault.t) : bool :=
  IChain.hasOnChainHarvesting chain
  && bool_decide (IVault.earnedToken vault ∉ IChain.vaultDenyList chain).

(** Sample data of the examples. *)
Definition bsc_on_chain : IChain.t := IChain.mk "bsc" true {["mooDenied"]}.
Definition polygon_off_chain : IChain.t := IChain.mk "polygon" false ∅.
Definition no_estimate (chain : IChain.t) (r : nat) : bool := false.

(** The chains of [data/chains.js] as [Object.values] lists them: the keys of
    that object are the chain ids 56, 128, 43114, 137, 250, 1666600000, 42161,
    42220, 1285, 25 and 122, all of them array indices, so the chains come in
    ascending order of the chain id.  No entry has [hasOnChainHarvesting], and
    the entry of ['aurora'] is commented out. *)
Definition chains_js : list IChain.t :=
  (λ id, IChain.mk id false ∅)
  <$> ["cronos"; "bsc"; "fuse"; "heco"; "polygon"; "fantom"; "moonriver"; "arbitrum";
       "celo"; "avax"; "one"].


(** The lookup of [SyncVaults] finds an entry for the vault, and that entry
    satisfies [P]. *)
Definition first_match (P : IStratToHrvst.t → Prop) (vault : IVault.t)
    (l : list (option IStratToHrvst.t)) : Prop :=
  ∃ r st, findIndex (matches vault) l = Some r
          ∧ l !! r = Some (Some st)
          ∧ P st.

(** The entry found for a vault is flagged for off-chain harvesting. *)
Definition routed_off_chain (vault : IVault.t) (l : list (option IStratToHrvst.t)) : Prop :=
  first_match (λ st, IStratToHrvst.noOnChainHrvst st = Some true) vault l.

(** Two vault records that the lookup cannot tell apart. *)
Definition same_key (v w : IVault.t) : Prop :=
  IVault.strategy v = IVault.strategy w ∧ IVault.id v = IVault.id w.

(** Sample data of the examples: a vault ["v1"] on ["bsc"] and its entry. *)
Definition vault_v1 (token strategy status : string) (lastHarvest : Z) : IVault.t :=
  IVault.mk "v1" "bsc" "0xE1" token strategy status lastHarvest.
Definition entry_v1 (token strategy : string) (lastHarvest : Z) (flag : option bool)
    : IStratToHrvst.t :=
  IStratToHrvst.mk "v1" "bsc" "0xE1" token strategy lastHarvest flag.
Definition entry_v2 : IStratToHrvst.t :=
  IStratToHrvst.mk "v2" "bsc" "0xE2" "mooTwo" "0xC" 100 None.
Definition start_from (l : list IStratToHrvst.t) : State :=
  mkState (Some <$> l) ∅ Hits.empty 0 0 [] false.


(** The routing and the update leave the entry as it is. *)
Definition settled (chain : IChain.t) (vault : IVault.t) (st : IStratToHrvst.t) : Prop :=
  harvested vault (routed chain vault st) = st.

(** The catalog agrees with a list: every active vault of the chain has a
    settled entry, no inactive one has an entry. *)
Definition in_step (chain : IChain.t) (l : list (option IStratToHrvst.t)) (w : IVault.t)
    : Prop :=
  IChain.id chain = IVault.chain w →
  if inactive (IVault.status w) then findIndex (matches w) l = None
  else first_match (settled chain w) w l.

(** ** The rest of the script and the task syncer *)

(** [stratsChanged]: the counts of a manager. *)
Definition stratsChanged (s : State) : nat * nat := (added_count s, removed_count s).

(** The number of entries of a list with holes. *)
Definition present (l : list (option IStratToHrvst.t)) : nat := length (compact l).

(** The state a new [ChainStratManager] starts [SyncVaults] with. *)
Definition manager_start (l : list (option IStratToHrvst.t)) (enc : gset string)
    (h : Hits.t) : State :=
  mkState l enc h 0 0 [] false.

(** The vaults of the catalog that a pass puts on the off-chain worklist. *)
Definition off_chain_vault (chain : IChain.t) (v : IVault.t) : Prop :=
  IChain.id chain = IVault.chain v
  ∧ inactive (IVault.status v) = false
  ∧ onChainHarvest chain v = false.

Global Instance off_chain_vault_dec chain v : Decision (off_chain_vault chain v).
Proof. unfold off_chain_vault. apply _. Defined.

(** The fields of an entry that identify it and its strategy. *)
Definition same_entry (e e' : IStratToHrvst.t) : Prop :=
  IStratToHrvst.id e' = IStratToHrvst.id e
  ∧ IStratToHrvst.chain e' = IStratToHrvst.chain e
  ∧ IStratToHrvst.earnContractAddress e' = IStratToHrvst.earnContractAddress e
  ∧ IStratToHrvst.earnedToken e' = IStratToHrvst.earnedToken e
  ∧ IStratToHrvst.strategy e' = IStratToHrvst.strategy e.

(** The kinds a pass of [SyncVaults] logs. *)
Definition pass_kind (k : HitType) : Prop :=
  k = added ∨ k = removed_inactive ∨ k = on_chain_harvest_switch.

(** *** [gelato/taskSyncer.ts] *)

(** The fields of [VaultConfig] that [TaskSyncer] reads. *)
Module VaultConfig.
Record t := mk {
  id : string;
  earnedToken : string;
  earnedTokenAddress : string }.
End VaultConfig.

(** [String.prototype.endsWith] *)
Definition endsWith (s suffix : string) : bool :=
  bool_decide (String.list_ascii_of_string suffix `suffix_of` String.list_ascii_of_string s).

(** The test of [_filterForActiveVaults]: the id does not end in ['eol'] and
    the [earnedToken] is not in the deny-list. *)
Definition passes_filter (vaultDenylist : gset string) (vault : VaultConfig.t) : bool :=
  negb (endsWith (VaultConfig.id vault) "eol")
  && negb (bool_decide (VaultConfig.earnedToken vault ∈ vaultDenylist)).

(** The assignment [vaults[ key] = value] of a string to a key of a plain
    object: the key is created or overwritten, unless it is ["__proto__"],
    whose setter ignores a value that is not an object. *)
Definition assign (key value : string) (vaults : gmap string string) : gmap string string :=
  if bool_decide (key = "__proto__") then vaults else <[key := value]> vaults.

(** [_filterForActiveVaults]: the object [vaults], from [earnedToken] to
    [earnedTokenAddress], filled in the order of the list. *)
Definition filterForActiveVaults (vaultDenylist : gset string)
    (vaultList : list VaultConfig.t) : gmap string string :=
  foldl (λ vaults vault,
           if passes_filter vaultDenylist vault
           then assign (VaultConfig.earnedToken vault) (VaultConfig.earnedTokenAddress vault)
                       vaults
           else vaults)
        ∅ vaultList.

Section TaskSyncer.

(** [GelatoClient] is outside this development: [computeTaskId] gives the
    task id of a vault address, [getGelatoAdminTaskIds] the ids of the tasks
    that exist. *)
Variable computeTaskId : string → string.
Variable userTaskIds : list string.

(** [_findVaultsWithMissingTask]: the entries of [vaultMap] whose task id is
    not in [new Set( userTaskIds)].  ([vaultMap] has no enumerable property
    but its own keys, and none of them is ["__proto__"].) *)
Definition findVaultsWithMissingTask (vaultMap : gmap string string) : gmap string string :=
  let userTaskIdsSet : gset string := list_to_set userTaskIds in
  filter (λ kv, computeTaskId kv.2 ∉ userTaskIdsSet) vaultMap.

(** [syncVaultHarvesterTasks]: the map handed to [createTasks], or [None]
    when the response is not [ok] or has no [body] and nothing is created.
    [vaults] is the array the fetched text evaluates to. *)
Definition syncVaultHarvesterTasks (vaultDenylist : gset string) (ok body : bool)
    (vaults : list VaultConfig.t) : option (gmap string string) :=
  if negb (ok && body) then None
  else Some (findVaultsWithMissingTask (filterForActiveVaults vaultDenylist vaults)).

End TaskSyncer.

(** Slot by slot, [l'] holds what [l] held, up to [R]: a hole stays a hole,
    an entry is deleted or replaced by one related to it. *)
Definition slots_keep (R : IStratToHrvst.t → IStratToHrvst.t → Prop)
    (l l' : list (option IStratToHrvst.t)) : Prop :=
  ∀ i a, l !! i = Some a →
    ∃ b, l' !! i = Some b
         ∧ match a, b with
           | _, None => True
           | Some x, Some y => R x y
           | None, Some _ => False
           end.

(** Sample data: every gas estimation is fulfilled. *)
Definition every_estimate (chain : IChain.t) (r : nat) : bool := true.

(** * Properties *)

(** ** The hit log *)

Module HitsFacts.

Lemma add_empty_id (k : HitType) (h : Hits.t) : Hits.add "" k h = h.
Proof. reflexivity. Qed.

Lemma get_app_None (id : string) (h h' : Hits.t) :
  Hits.get id h = None → Hits.get id (h ++ h') = Hits.get id h'.
Proof.
  induction h as [|x h IH]; simpl; [done|].
  case_bool_decide; [done|]. exact IH.
Qed.

Lemma get_update (id : string) (f : HitTypes → HitTypes) (h : Hits.t) :
  Hits.get id (Hits.update id f h)
  = (λ x, mkHit (hit_id x) (f (hit_type x))) <$> Hits.get id h.
Proof.
  induction h as [|x h IH]; simpl; [done|].
  case_bool_decide as Hx; simpl.
  - by rewrite bool_decide_true.
  - by rewrite bool_decide_false.
Qed.

Lemma get_update_ne (id id' : string) (f : HitTypes → HitTypes) (h : Hits.t) :
  id' ≠ id → Hits.get id' (Hits.update id f h) = Hits.get id' h.
Proof.
  intros Hne. induction h as [|x h IH]; simpl; [done|].
  case_bool_decide as Hx; simpl.
  - rewrite !bool_decide_false; [done|congruence..].
  - case_bool_decide; [done|]. exact IH.
Qed.

Lemma get_add_ne (id id' : string) (k : HitType) (h : Hits.t) :
  id' ≠ id → Hits.get id' (Hits.add id k h) = Hits.get id' h.
Proof.
  intros Hne. unfold Hits.add. case_bool_decide; [done|].
  destruct (Hits.inherited id); [done|].
  destruct (Hits.get id h) as [hit|] eqn:Hg.
  - destruct (hit_type hit); by apply get_update_ne.
  - induction h as [|x h IH]; simpl in *.
    + by rewrite bool_decide_false.
    + case_bool_decide; [done|]. case_bool_decide; [done|]. by apply IH.
Qed.

Lemma add_inherited (id : string) (k : HitType) (h : Hits.t) :
  Hits.inherited id = true → Hits.add id k h = h.
Proof. intros Hi. unfold Hits.add. rewrite Hi. by case_bool_decide. Qed.

Lemma ordinary_stored (id : string) :
  Hits.ordinary id → id ≠ "" ∧ Hits.inherited id = false.
Proof.
  intros (Hid & Hin & _). split; [done|]. by apply bool_decide_eq_false.
Qed.

(** A call of [add] with an id that is neither empty nor an inherited name
    appends the kind to the kinds recorded for that id. *)
Lemma kinds_add (id : string) (k : HitType) (h : Hits.t) :
  id ≠ "" → Hits.inherited id = false →
  Hits.kinds id (Hits.add id k h) = Hits.kinds id h ++ [k].
Proof.
  intros Hid Hi. unfold Hits.kinds, Hits.add.
  rewrite bool_decide_false, Hi by done.
  destruct (Hits.get id h) as [hit|] eqn:Hg.
  - destruct (hit_type hit) as [t0|ts] eqn:Ht;
      rewrite get_update, Hg; simpl; done.
  - rewrite get_app_None by done. simpl. by rewrite bool_decide_true.
Qed.

Lemma kinds_add_ne (id id' : string) (k : HitType) (h : Hits.t) :
  id' ≠ id → Hits.kinds id' (Hits.add id k h) = Hits.kinds id' h.
Proof. intros Hne. unfold Hits.kinds. by rewrite get_add_ne. Qed.

(** Kinds once recorded stay recorded. *)
Lemma kinds_add_mono (id id' : string) (k k' : HitType) (h : Hits.t) :
  k' ∈ Hits.kinds id' h → k' ∈ Hits.kinds id' (Hits.add id k h).
Proof.
  intros Hin. destruct (decide (id' = id)) as [->|Hne].
  - destruct (decide (id = "")) as [->|Hid]; [done|].
    destruct (Hits.inherited id) eqn:Hi; [by rewrite add_inherited|].
    rewrite kinds_add by done. set_solver.
  - by rewrite kinds_add_ne.
Qed.

Lemma update_no_empty_id (id : string) (f : HitTypes → HitTypes) (h : Hits.t) :
  no_empty_id h → no_empty_id (Hits.update id f h).
Proof.
  unfold no_empty_id. induction 1 as [|x h Hx Hh IH]; simpl; [constructor|].
  case_bool_decide; constructor; done.
Qed.

Lemma add_no_empty_id (id : string) (k : HitType) (h : Hits.t) :
  no_empty_id h → no_empty_id (Hits.add id k h).
Proof.
  intros Hh. unfold Hits.add. case_bool_decide as Hid; [done|].
  destruct (Hits.inherited id); [done|].
  destruct (Hits.get id h) as [hit|].
  - destruct (hit_type hit); by apply update_no_empty_id.
  - apply Forall_app. split; [done|]. by repeat constructor.
Qed.

Lemma get_Some (id : string) (h : Hits.t) (x : Hit) :
  Hits.get id h = Some x → x ∈ h ∧ hit_id x = id.
Proof.
  induction h as [|y h IH]; simpl; [done|].
  case_bool_decide as Hy.
  - intros [= <-]. split; [by left|done].
  - intros [Hin Hid]%IH. split; [by right|done].
Qed.

Lemma get_is_Some (id : string) (h : Hits.t) :
  id ∈ hit_id <$> h → is_Some (Hits.get id h).
Proof.
  induction h as [|y h IH]; simpl.
  - by intros ?%elem_of_nil.
  - intros Hin. case_bool_decide as Hy; [done|].
    apply elem_of_cons in Hin as [Hin|Hin]; [congruence|by apply IH].
Qed.

Lemma insert_index_Permutation (k : string) (n : N) (l : list string) :
  Hits.insert_index k n l ≡ₚ k :: l.
Proof.
  induction l as [|k' l IH]; simpl; [done|].
  case_bool_decide; [done|]. rewrite IH. apply Permutation_swap.
Qed.

Lemma index_keys_snoc (ids : list string) (k : string) :
  Hits.index_keys (ids ++ [k])
  = match Hits.array_index k with
    | Some n => Hits.insert_index k n (Hits.index_keys ids)
    | None => Hits.index_keys ids
    end.
Proof. unfold Hits.index_keys. by rewrite foldl_app. Qed.

Lemma index_keys_Permutation (ids : list string) :
  Hits.index_keys ids ≡ₚ filter (λ k, Hits.array_index k ≠ None) ids.
Proof.
  induction ids as [|k ids IH] using rev_ind; [done|].
  rewrite index_keys_snoc, filter_app.
  destruct (Hits.array_index k) as [n|] eqn:Hk.
  - rewrite filter_cons_True by congruence.
    rewrite insert_index_Permutation, IH. rewrite filter_nil.
    by rewrite Permutation_cons_append.
  - rewrite filter_cons_False by (intros ?; congruence).
    by rewrite filter_nil, app_nil_r.
Qed.

(** [keys] lists every key once. *)
Lemma keys_Permutation (h : Hits.t) : Hits.keys h ≡ₚ hit_id <$> h.
Proof.
  unfold Hits.keys. rewrite index_keys_Permutation.
  induction (hit_id <$> h) as [|k l IH]; [done|].
  destruct (decide (Hits.array_index k = None)) as [Hk|Hk].
  - rewrite filter_cons_False by (intros ?; congruence).
    rewrite filter_cons_True by done.
    by rewrite <- Permutation_middle, IH.
  - rewrite filter_cons_True by done. rewrite filter_cons_False by done.
    simpl. by rewrite IH.
Qed.

(** [values] lists the records in the order of [keys]. *)
Lemma values_ids (h : Hits.t) : hit_id <$> Hits.values h = Hits.keys h.
Proof.
  unfold Hits.values.
  assert (Hks : ∀ k, k ∈ Hits.keys h → k ∈ hit_id <$> h).
  { intros k. by rewrite keys_Permutation. }
  induction (Hits.keys h) as [|k ks IH]; [done|].
  destruct (get_is_Some k h) as [x Hx]; [apply Hks; by left|].
  cbn [omap list_omap]. rewrite Hx. rewrite fmap_cons.
  apply get_Some in Hx as [_ ->]. f_equal.
  apply IH. intros; apply Hks; by right.
Qed.

Lemma values_elem_of (h : Hits.t) (x : Hit) : x ∈ Hits.values h → x ∈ h.
Proof.
  unfold Hits.values. intros (k & _ & Hk)%list_elem_of_omap.
  by apply get_Some in Hk as [? _].
Qed.

Lemma values_length (h : Hits.t) : length (Hits.values h) = length h.
Proof.
  rewrite <- (length_fmap hit_id (Hits.values h)), values_ids.
  by rewrite keys_Permutation, length_fmap.
Qed.

End HitsFacts.

(** ** [findIndex] *)

Lemma findIndex_Some {A} (p : A → bool) (l : list A) (i : nat) :
  findIndex p l = Some i ↔
  (∃ x, l !! i = Some x ∧ p x = true) ∧
  (∀ j y, (j < i)%nat → l !! j = Some y → p y = false).
Proof.
  revert i. induction l as [|x l IH]; intros i; simpl.
  - split; [done|]. by intros [(y & ? & _) _].
  - destruct (p x) eqn:Hx.
    + split.
      * intros [= <-]. split; [by exists x|]. intros j y Hj. lia.
      * intros [(y & Hy & Hpy) Hlt]. destruct i as [|i]; [done|].
        specialize (Hlt 0%nat x). simpl in Hlt. rewrite Hlt in Hx; [done|lia|done].
    + destruct i as [|i].
      * split.
        -- destruct (findIndex p l); done.
        -- intros [(y & [= <-] & Hpy) _]. congruence.
      * specialize (IH i). split.
        -- destruct (findIndex p l) as [k|] eqn:Hk; [|done].
           intros [= ->]. destruct IH as [[Hex Hlt] _]; [done|].
           split; [done|]. intros [|j] y Hj; simpl; [congruence|].
           apply Hlt. lia.
        -- intros [Hex Hlt]. destruct IH as [_ IH]. rewrite IH; [done|].
           split; [done|]. intros j y Hj Hy. apply (Hlt (S j) y); [lia|done].
Qed.

Lemma findIndex_None {A} (p : A → bool) (l : list A) :
  findIndex p l = None ↔ ∀ x, x ∈ l → p x = false.
Proof.
  induction l as [|x l IH]; simpl.
  - split; [|done]. intros _ y Hy. by apply elem_of_nil in Hy.
  - destruct (p x) eqn:Hx.
    + split; [done|]. intros H. rewrite H in Hx; [done|]. by left.
    + destruct (findIndex p l) as [k|]; simpl.
      * split; [done|]. intros H. destruct IH as [_ IH].
        discriminate IH. intros y Hy. apply H. by right.
      * split; [|done]. intros _ y [->|Hy]%elem_of_cons; [done|]. by apply IH.
Qed.

Lemma matches_Some (vault : IVault.t) (o : option IStratToHrvst.t) :
  matches vault o = true ↔
  ∃ st, o = Some st ∧ IStratToHrvst.strategy st = IVault.strategy vault
        ∧ IStratToHrvst.id st = IVault.id vault.
Proof.
  destruct o as [st|]; simpl.
  - rewrite andb_true_iff, !bool_decide_eq_true. split.
    + intros [? ?]. exists st. by repeat split.
    + intros (? & [= <-] & ? & ?). by split.
  - split; [done|]. by intros (? & ? & _).
Qed.

(** ** One vault of the pass, case by case *)

Lemma alter_slot (l : list (option IStratToHrvst.t)) (r : nat)
    (f : IStratToHrvst.t → IStratToHrvst.t) (st : IStratToHrvst.t) :
  l !! r = Some (Some st) → alter (fmap f) r l = <[r := Some (f st)]> l.
Proof.
  intros Hr. apply list_eq. intros j. destruct (decide (j = r)) as [->|Hne].
  - rewrite list_lookup_alter_eq, Hr. simpl.
    rewrite list_lookup_insert_eq; [done|]. by eapply lookup_lt_Some.
  - rewrite list_lookup_alter_ne, list_lookup_insert_ne; done.
Qed.

Lemma route_found (chain : IChain.t) (vault : IVault.t) (i r : nat) (s : State)
    (st : IStratToHrvst.t) :
  stratsToHarvest s !! r = Some (Some st) →
  IStratToHrvst.strategy st = IVault.strategy vault →
  route_and_update chain vault (Some i) r s =
  mkState (<[r := Some (harvested vault (routed chain vault st))]> (stratsToHarvest s))
          (encountered s)
          (if switch_needed chain vault st
           then Hits.add (IVault.id vault) on_chain_harvest_switch (hits s) else hits s)
          (added_count s) (removed_count s)
          (notOnChainHarvest s ++ worklist chain vault r)
          (dirty s || switch_needed chain vault st
           || bool_decide (IStratToHrvst.lastHarvest st < IVault.lastHarvest vault)).
Proof.
  intros Hr Hst. pose proof (lookup_lt_Some _ _ _ Hr) as Hlt.
  destruct s as [l enc h a rm w d].
  cbn [stratsToHarvest encountered hits added_count removed_count notOnChainHarvest dirty] in *.
  unfold routed, harvested, switch_needed, worklist.
  assert (Hd : ∀ e h a rm w d, deref r (mkState l e h a rm w d) = Some st).
  { intros. unfold deref. cbn [stratsToHarvest]. by rewrite Hr. }
  assert (Hd' : ∀ x e h a rm w d, deref r (mkState (<[r := Some x]> l) e h a rm w d) = Some x).
  { intros. unfold deref. cbn [stratsToHarvest]. by rewrite list_lookup_insert_eq. }
  assert (Hm : ∀ f e h a rm w d, modify r f (mkState l e h a rm w d)
                = mkState (<[r := Some (f st)]> l) e h a rm w d).
  { intros. unfold modify, with_strats. cbn [stratsToHarvest]. by rewrite (alter_slot _ _ _ st). }
  assert (Hm' : ∀ f x e h a rm w d, modify r f (mkState (<[r := Some x]> l) e h a rm w d)
                = mkState (<[r := Some (f x)]> l) e h a rm w d).
  { intros. unfold modify, with_strats. cbn [stratsToHarvest].
    rewrite (alter_slot _ _ _ x) by (by rewrite list_lookup_insert_eq).
    by rewrite list_insert_insert_eq. }
  destruct st as [sid sch sea stok sstr slh sfl]. cbn [IStratToHrvst.strategy IStratToHrvst.lastHarvest IStratToHrvst.noOnChainHrvst] in *. subst sstr.
  unfold route_and_update.
  generalize (onChainHarvest chain vault).
  generalize (IChain.hasOnChainHarvesting chain).
  intros has on.
  destruct on, has, sfl as [[]|];
  repeat (progress (rewrite ?Hd, ?Hd', ?Hm, ?Hm', ?bool_decide_true by done;
    cbn [truthy default from_option id negb andb orb mbind option_bind
         fmap option_fmap option_map with_hit with_dirty with_notOnChain
         IStratToHrvst.set_lastHarvest IStratToHrvst.set_noOnChainHrvst
         IStratToHrvst.id IStratToHrvst.chain IStratToHrvst.earnContractAddress
         IStratToHrvst.earnedToken IStratToHrvst.strategy IStratToHrvst.lastHarvest
         IStratToHrvst.noOnChainHrvst]));
  case_bool_decide;
  rewrite ?Hm, ?Hm', ?orb_true_r, ?orb_false_r, ?app_nil_r;
  cbn [with_dirty IStratToHrvst.set_lastHarvest IStratToHrvst.set_noOnChainHrvst
       IStratToHrvst.id IStratToHrvst.chain IStratToHrvst.earnContractAddress
       IStratToHrvst.earnedToken IStratToHrvst.strategy IStratToHrvst.lastHarvest
       IStratToHrvst.noOnChainHrvst]; try done.
  all: try (by rewrite list_insert_id).
Qed.

Lemma route_new (chain : IChain.t) (vault : IVault.t) (s : State)
    (l : list (option IStratToHrvst.t)) (st : IStratToHrvst.t) :
  stratsToHarvest s = l ++ [Some st] →
  route_and_update chain vault None (length l) s =
  mkState (l ++ [Some (routed chain vault st)])
          (encountered s) (hits s) (added_count s) (removed_count s)
          (notOnChainHarvest s ++ worklist chain vault (length l))
          (dirty s).
Proof.
  intros Hl. destruct s as [l0 enc h a rm w d]. simpl in *. subst l0.
  assert (Hr : (l ++ [Some st]) !! length l = Some (Some st))
    by (by rewrite lookup_app_r, Nat.sub_diag by lia).
  assert (Hins : ∀ x, <[length l := x]> (l ++ [Some st]) = l ++ [x]).
  { intros x. rewrite insert_app_r_alt, Nat.sub_diag by lia. done. }
  unfold route_and_update, routed, switch_needed, worklist, deref, modify,
    with_notOnChain, with_strats; simpl.
  rewrite Hr; simpl.
  destruct (onChainHarvest chain vault); simpl;
  destruct (IChain.hasOnChainHarvesting chain); simpl;
  destruct (truthy (IStratToHrvst.noOnChainHrvst st)); simpl;
  rewrite ?(alter_slot _ _ _ _ Hr), ?Hins, ?app_nil_r; done.
Qed.

(** The result of the callback for one vault of the chain, by the outcome
    of the lookup and the status of the vault. *)
Lemma sync_vault_other (chain : IChain.t) (vault : IVault.t) (s : State) :
  IChain.id chain ≠ IVault.chain vault → sync_vault chain vault s = s.
Proof. intros Hne. unfold sync_vault. by rewrite bool_decide_false. Qed.

Lemma sync_vault_spec (chain : IChain.t) (vault : IVault.t) (s : State) :
  IChain.id chain = IVault.chain vault →
  match findIndex (matches vault) (stratsToHarvest s) with
  | None =>
      sync_vault chain vault s =
      if inactive (IVault.status vault) then s
      else mkState (stratsToHarvest s ++ [Some (routed chain vault (entry_of vault))])
             ({[IVault.id vault]} ∪ encountered s)
             (Hits.add (IVault.id vault) added (hits s))
             (S (added_count s)) (removed_count s)
             (notOnChainHarvest s ++ worklist chain vault (length (stratsToHarvest s)))
             true
  | Some r =>
      ∃ st, stratsToHarvest s !! r = Some (Some st)
        ∧ IStratToHrvst.strategy st = IVault.strategy vault
        ∧ IStratToHrvst.id st = IVault.id vault
        ∧ sync_vault chain vault s =
          if inactive (IVault.status vault)
          then mkState (<[r := None]> (stratsToHarvest s)) (encountered s)
                 (Hits.add (IVault.id vault) removed_inactive (hits s))
                 (added_count s) (S (removed_count s)) (notOnChainHarvest s) true
          else mkState
                 (<[r := Some (harvested vault (routed chain vault st))]> (stratsToHarvest s))
                 ({[IVault.id vault]} ∪ encountered s)
                 (if switch_needed chain vault st
                  then Hits.add (IVault.id vault) on_chain_harvest_switch (hits s)
                  else hits s)
                 (added_count s) (removed_count s)
                 (notOnChainHarvest s ++ worklist chain vault r)
                 (dirty s || switch_needed chain vault st
                  || bool_decide (IStratToHrvst.lastHarvest st < IVault.lastHarvest vault))
  end.
Proof.
  intros Hc. unfold sync_vault. rewrite bool_decide_true by done.
  cbn [negb].
  destruct (findIndex (matches vault) (stratsToHarvest s)) as [r|] eqn:Hfind;
    cbn [mbind option_bind default from_option id].
  - apply findIndex_Some in Hfind as [(o & Hr & Hm) _].
    apply matches_Some in Hm as (st & -> & Hstrat & Hid).
    exists st. repeat split; try done.
    unfold deref at 1. rewrite Hr. cbn [mjoin option_join mbind option_bind].
    destruct (inactive (IVault.status vault)).
    + by destruct s.
    + rewrite (route_found _ _ _ _ _ st); [by destruct s| by destruct s|done].
  - destruct (inactive (IVault.status vault)); [done|].
    rewrite (route_new _ _ _ (stratsToHarvest s) (entry_of vault)); by destruct s.
Qed.

(** ** The encountered set *)

Lemma sync_vault_encountered (chain : IChain.t) (vault : IVault.t) (s : State) :
  encountered (sync_vault chain vault s) =
  if bool_decide (IChain.id chain = IVault.chain vault) && negb (inactive (IVault.status vault))
  then {[IVault.id vault]} ∪ encountered s
  else encountered s.
Proof.
  case_bool_decide as Hc; simpl.
  - pose proof (sync_vault_spec chain vault s Hc) as Hs.
    destruct (findIndex _ _); [destruct Hs as (st & _ & _ & _ & Hs)|];
      rewrite Hs; by destruct (inactive _).
  - by rewrite sync_vault_other.
Qed.

Lemma inactive_false (status : string) :
  inactive status = false ↔ status ≠ "eol" ∧ status ≠ "paused".
Proof.
  unfold inactive. rewrite orb_false_iff, !bool_decide_eq_false. done.
Qed.

Lemma forEach_vault_encountered (chain : IChain.t) (vaults : list IVault.t) (s : State)
    (x : string) :
  x ∈ encountered (forEach_vault chain vaults s) ↔
  x ∈ encountered s ∨
  ∃ v, v ∈ vaults ∧ IVault.id v = x ∧ IVault.chain v = IChain.id chain
       ∧ inactive (IVault.status v) = false.
Proof.
  unfold forEach_vault. revert s.
  induction vaults as [|v vaults IH]; intros s; simpl.
  - split; [by left|]. intros [?|(v & Hv & _)]; [done|]. by apply elem_of_nil in Hv.
  - rewrite IH, sync_vault_encountered. split.
    + intros [Hx|(w & Hw & ?)].
      * case_bool_decide as Hc; simpl in Hx;
          [destruct (inactive (IVault.status v)) eqn:Hi; simpl in Hx|]; try by left.
        apply elem_of_union in Hx as [->%elem_of_singleton|Hx]; [|by left].
        right. exists v. repeat split; try done. by left.
      * right. exists w. split; [by right|done].
    + intros [Hx|(w & [->|Hw]%elem_of_cons & Hid & Hc & Hi)].
      * left. case_bool_decide; simpl; [destruct (inactive _); simpl|]; try done.
        apply elem_of_union. by right.
      * left. rewrite bool_decide_true, Hi by done. simpl.
        apply elem_of_union. left. by apply elem_of_singleton.
      * right. by exists w.
Qed.

(** ** What every call site of [Hits.add] preserves *)

Lemma sync_vault_hits (P : Hits.t → Prop) (chain : IChain.t) (vault : IVault.t) (s : State) :
  (∀ id k h, P h → P (Hits.add id k h)) →
  P (hits s) → P (hits (sync_vault chain vault s)).
Proof.
  intros Hadd HP. destruct (decide (IChain.id chain = IVault.chain vault)) as [Hc|Hc].
  - pose proof (sync_vault_spec chain vault s Hc) as Hs.
    destruct (findIndex _ _); [destruct Hs as (st & _ & _ & _ & Hs)|];
      rewrite Hs; destruct (inactive _); simpl; auto.
    destruct (switch_needed _ _ _); auto.
  - by rewrite sync_vault_other.
Qed.

Lemma forEach_vault_hits (P : Hits.t → Prop) (chain : IChain.t) (vaults : list IVault.t)
    (s : State) :
  (∀ id k h, P h → P (Hits.add id k h)) →
  P (hits s) → P (hits (forEach_vault chain vaults s)).
Proof.
  intros Hadd. unfold forEach_vault. revert s.
  induction vaults as [|v vaults IH]; intros s HP; simpl; [done|].
  apply IH. by apply sync_vault_hits.
Qed.

Lemma sweep_hits (P : Hits.t → Prop) (enc : gset string)
    (l : list (option IStratToHrvst.t)) (h : Hits.t) :
  (∀ id k h, P h → P (Hits.add id k h)) →
  P h → P (sweep enc l h).2.
Proof.
  intros Hadd. revert h. induction l as [|[st|] l IH]; intros h HP; simpl; [done|..].
  - case_bool_decide.
    + specialize (IH h HP). by destruct (sweep enc l h).
    + specialize (IH _ (Hadd (IStratToHrvst.id st) removed_decomissioned h HP)).
      by destruct (sweep enc l _).
  - specialize (IH h HP). by destruct (sweep enc l h).
Qed.

(** ** The sweep, slot by slot *)

Lemma sweep_length (enc : gset string) (l : list (option IStratToHrvst.t)) (h : Hits.t) :
  length (sweep enc l h).1 = length l.
Proof.
  revert h. induction l as [|[st|] l IH]; intros h; simpl; [done|..].
  - case_bool_decide.
    + specialize (IH h). destruct (sweep enc l h). simpl in *. by f_equal.
    + specialize (IH (Hits.add (IStratToHrvst.id st) removed_decomissioned h)).
      destruct (sweep enc l _). simpl in *. by f_equal.
  - specialize (IH h). destruct (sweep enc l h). simpl in *. by f_equal.
Qed.

Lemma sweep_lookup (enc : gset string) (l : list (option IStratToHrvst.t)) (h : Hits.t)
    (i : nat) :
  (sweep enc l h).1 !! i =
  (λ o, match o with
        | Some st => if bool_decide (IStratToHrvst.id st ∈ enc) then Some st else None
        | None => None
        end) <$> l !! i.
Proof.
  revert h i. induction l as [|[st|] l IH]; intros h i; simpl; [done|..].
  - case_bool_decide as Hin.
    + specialize (IH h). destruct (sweep enc l h).
      destruct i; simpl; [by rewrite bool_decide_true|apply IH].
    + specialize (IH (Hits.add (IStratToHrvst.id st) removed_decomissioned h)).
      destruct (sweep enc l _).
      destruct i; simpl; [by rewrite bool_decide_false|apply IH].
  - specialize (IH h). destruct (sweep enc l h). destruct i; simpl; [done|apply IH].
Qed.

Lemma sweep_logged (enc : gset string) (l : list (option IStratToHrvst.t)) (h : Hits.t)
    (st : IStratToHrvst.t) :
  Some st ∈ l → IStratToHrvst.id st ∉ enc →
  IStratToHrvst.id st ≠ "" → Hits.inherited (IStratToHrvst.id st) = false →
  removed_decomissioned ∈ Hits.kinds (IStratToHrvst.id st) (sweep enc l h).2.
Proof.
  intros Hin Hnot Hid Hi. revert h.
  induction l as [|[st'|] l IH]; intros h; simpl.
  - by apply elem_of_nil in Hin.
  - apply elem_of_cons in Hin as [[= <-]|Hin].
    + rewrite bool_decide_false by done.
      pose proof (sweep_hits
        (λ h, removed_decomissioned ∈ Hits.kinds (IStratToHrvst.id st) h) enc l
        (Hits.add (IStratToHrvst.id st) removed_decomissioned h)) as Hk.
      simpl in Hk. destruct (sweep enc l _). simpl in *. apply Hk.
      * intros. by apply HitsFacts.kinds_add_mono.
      * rewrite HitsFacts.kinds_add by done. set_solver.
    + case_bool_decide.
      * specialize (IH Hin h). by destruct (sweep enc l h).
      * specialize (IH Hin (Hits.add (IStratToHrvst.id st') removed_decomissioned h)).
        by destruct (sweep enc l _).
  - apply elem_of_cons in Hin as [?|Hin]; [done|].
    specialize (IH Hin h). by destruct (sweep enc l h).
Qed.

(** ** The coordinator: encountered ids and hit log over all chains *)

Section CoordinatorFacts.

Variable estimateGas : IChain.t → nat → bool.

Lemma run_chain_encountered (vaults : list IVault.t) (c : Coordinator) (chain : IChain.t)
    (x : string) :
  x ∈ co_encountered (run_chain estimateGas vaults c chain) ↔
  x ∈ co_encountered c ∨
  ∃ v, v ∈ vaults ∧ IVault.id v = x ∧ IVault.chain v = IChain.id chain
       ∧ inactive (IVault.status v) = false.
Proof. unfold run_chain, SyncVaults. simpl. by rewrite forEach_vault_encountered. Qed.

Lemma foldl_run_chain_encountered (chains : list IChain.t) (vaults : list IVault.t)
    (c : Coordinator) (x : string) :
  x ∈ co_encountered (foldl (run_chain estimateGas vaults) c chains) ↔
  x ∈ co_encountered c ∨
  ∃ v, v ∈ vaults ∧ IVault.id v = x ∧ inactive (IVault.status v) = false
       ∧ ∃ chain, chain ∈ chains ∧ IChain.id chain = IVault.chain v.
Proof.
  revert c. induction chains as [|ch chains IH]; intros c; simpl.
  - split; [by left|]. intros [?|(v & _ & _ & _ & ch & Hch & _)]; [done|].
    by apply elem_of_nil in Hch.
  - rewrite IH, run_chain_encountered. split.
    + intros [[?|(v & ? & ? & ? & ?)]|(v & ? & ? & ? & ch' & ? & ?)].
      * by left.
      * right. exists v. repeat split; try done. exists ch. split; [by left|done].
      * right. exists v. repeat split; try done. exists ch'. split; [by right|done].
    + intros [?|(v & ? & ? & ? & ch' & [->|?]%elem_of_cons & ?)].
      * by left; left.
      * left; right. by exists v.
      * right. exists v. repeat split; try done. by exists ch'.
Qed.

Lemma run_sweep_encountered (c : Coordinator) :
  co_encountered (run_sweep c) = co_encountered c.
Proof. unfold run_sweep. by destruct (sweep _ _ _). Qed.

Lemma run_sweep_strats (c : Coordinator) :
  co_strats (run_sweep c) = (sweep (co_encountered c) (co_strats c) (co_hits c)).1.
Proof. unfold run_sweep. by destruct (sweep _ _ _). Qed.

Lemma run_sweep_hits (c : Coordinator) :
  co_hits (run_sweep c) = (sweep (co_encountered c) (co_strats c) (co_hits c)).2.
Proof. unfold run_sweep. by destruct (sweep _ _ _). Qed.

Lemma run_sweep_dirty (c : Coordinator) : co_dirty (run_sweep c) = co_dirty c.
Proof. unfold run_sweep. by destruct (sweep _ _ _). Qed.

Lemma foldl_run_chain_hits (P : Hits.t → Prop) (chains : list IChain.t)
    (vaults : list IVault.t) (c : Coordinator) :
  (∀ id k h, P h → P (Hits.add id k h)) →
  P (co_hits c) → P (co_hits (foldl (run_chain estimateGas vaults) c chains)).
Proof.
  intros Hadd. revert c. induction chains as [|ch chains IH]; intros c Hc; simpl; [done|].
  apply IH. unfold run_chain, SyncVaults. simpl. by apply forEach_vault_hits.
Qed.

Lemma reconcile_hits (P : Hits.t → Prop) (chains : list IChain.t)
    (vaults : list IVault.t) (strats : list IStratToHrvst.t) :
  (∀ id k h, P h → P (Hits.add id k h)) →
  P Hits.empty → P (co_hits (reconcile estimateGas chains vaults strats)).
Proof.
  intros Hadd HP. unfold reconcile. rewrite run_sweep_hits.
  apply sweep_hits; [done|]. unfold run_chains. by apply foldl_run_chain_hits.
Qed.

End CoordinatorFacts.

(** ** The entry after routing and update *)

Lemma routed_fields (chain : IChain.t) (vault : IVault.t) (st : IStratToHrvst.t) :
  IStratToHrvst.id (routed chain vault st) = IStratToHrvst.id st
  ∧ IStratToHrvst.chain (routed chain vault st) = IStratToHrvst.chain st
  ∧ IStratToHrvst.earnedToken (routed chain vault st) = IStratToHrvst.earnedToken st
  ∧ IStratToHrvst.strategy (routed chain vault st) = IStratToHrvst.strategy st
  ∧ IStratToHrvst.lastHarvest (routed chain vault st) = IStratToHrvst.lastHarvest st
  ∧ IStratToHrvst.noOnChainHrvst (routed chain vault st)
    = if switch_needed chain vault st then Some (negb (onChainHarvest chain vault))
      else IStratToHrvst.noOnChainHrvst st.
Proof. unfold routed. by destruct (switch_needed chain vault st). Qed.

Lemma harvested_fields (vault : IVault.t) (st : IStratToHrvst.t) :
  IStratToHrvst.id (harvested vault st) = IStratToHrvst.id st
  ∧ IStratToHrvst.chain (harvested vault st) = IStratToHrvst.chain st
  ∧ IStratToHrvst.earnedToken (harvested vault st) = IStratToHrvst.earnedToken st
  ∧ IStratToHrvst.strategy (harvested vault st) = IStratToHrvst.strategy st
  ∧ IStratToHrvst.noOnChainHrvst (harvested vault st) = IStratToHrvst.noOnChainHrvst st
  ∧ IStratToHrvst.lastHarvest (harvested vault st)
    = if bool_decide (IStratToHrvst.lastHarvest st < IVault.lastHarvest vault)
      then IVault.lastHarvest vault else IStratToHrvst.lastHarvest st.
Proof. unfold harvested. by case_bool_decide. Qed.

(** The flag an entry has after the routing decision differs from the one it
    had exactly when the switch was needed. *)
Lemma switch_changes_flag (chain : IChain.t) (vault : IVault.t) (st : IStratToHrvst.t) :
  switch_needed chain vault st = true →
  Some (negb (onChainHarvest chain vault)) ≠ IStratToHrvst.noOnChainHrvst st.
Proof.
  unfold switch_needed.
  destruct (onChainHarvest chain vault), (IChain.hasOnChainHarvesting chain),
    (IStratToHrvst.noOnChainHrvst st) as [[]|]; simpl; congruence.
Qed.

Lemma updated_same (chain : IChain.t) (vault : IVault.t) (st : IStratToHrvst.t) :
  harvested vault (routed chain vault st) = st ↔
  switch_needed chain vault st = false
  ∧ bool_decide (IStratToHrvst.lastHarvest st < IVault.lastHarvest vault) = false.
Proof.
  split.
  - intros Heq.
    pose proof (f_equal IStratToHrvst.noOnChainHrvst Heq) as Hf.
    pose proof (f_equal IStratToHrvst.lastHarvest Heq) as Hl.
    destruct (harvested_fields vault (routed chain vault st)) as (_ & _ & _ & _ & Hf' & Hl').
    destruct (routed_fields chain vault st) as (_ & _ & _ & _ & Hl'' & Hf'').
    rewrite Hf', Hf'' in Hf. rewrite Hl', Hl'' in Hl. split.
    + destruct (switch_needed chain vault st) eqn:Hsw; [|done].
      by apply switch_changes_flag in Hsw.
    + destruct (bool_decide (IStratToHrvst.lastHarvest st < IVault.lastHarvest vault))
        eqn:Hb; [|done].
      apply bool_decide_eq_true in Hb. lia.
  - intros [Hsw Hlt]. unfold harvested, routed. by rewrite Hsw, Hlt.
Qed.

(** ** [dirty] and the mutation of the list *)

Lemma sync_vault_dirty (chain : IChain.t) (vault : IVault.t) (s : State) :
  dirty (sync_vault chain vault s) =
  dirty s || bool_decide (stratsToHarvest (sync_vault chain vault s) ≠ stratsToHarvest s).
Proof.
  destruct (decide (IChain.id chain = IVault.chain vault)) as [Hc|Hc].
  - pose proof (sync_vault_spec chain vault s Hc) as Hs.
    destruct (findIndex _ _) as [r|]; [destruct Hs as (st & Hr & _ & _ & Hs)|];
      rewrite Hs; destruct (inactive _); simpl.
    + rewrite bool_decide_true, orb_true_r; [done|].
      intros Heq. apply (f_equal (.!! r)) in Heq.
      rewrite list_lookup_insert_eq, Hr in Heq by (by eapply lookup_lt_Some). done.
    + rewrite <- orb_assoc. f_equal.
      destruct (switch_needed chain vault st
                || bool_decide (IStratToHrvst.lastHarvest st < IVault.lastHarvest vault))
        eqn:Hany.
      * rewrite bool_decide_true; [done|]. intros Heq.
        apply (f_equal (.!! r)) in Heq.
        rewrite list_lookup_insert_eq, Hr in Heq by (by eapply lookup_lt_Some).
        injection Heq as Heq. apply updated_same in Heq as [Hsw Hlt].
        rewrite Hsw, Hlt in Hany. done.
      * apply orb_false_iff in Hany. apply updated_same in Hany.
        rewrite Hany, list_insert_id by done. by rewrite bool_decide_false by auto.
    + rewrite bool_decide_false, orb_false_r by auto. done.
    + rewrite bool_decide_true, orb_true_r; [done|].
      intros Heq. apply (f_equal length) in Heq. rewrite length_app in Heq.
      simpl in Heq. lia.
  - rewrite sync_vault_other by done. rewrite bool_decide_false, orb_false_r by auto. done.
Qed.

Lemma forEach_vault_snoc (chain : IChain.t) (vaults : list IVault.t) (vault : IVault.t)
    (s : State) :
  forEach_vault chain (vaults ++ [vault]) s
  = sync_vault chain vault (forEach_vault chain vaults s).
Proof. unfold forEach_vault. by rewrite foldl_app. Qed.

Lemma forEach_vault_dirty (chain : IChain.t) (vaults : list IVault.t) (s : State) :
  dirty (forEach_vault chain vaults s) = true ↔
  dirty s = true ∨
  ∃ pre vault post, vaults = pre ++ vault :: post
    ∧ stratsToHarvest (forEach_vault chain (pre ++ [vault]) s)
      ≠ stratsToHarvest (forEach_vault chain pre s).
Proof.
  induction vaults as [|v vaults IH] using rev_ind.
  - simpl. split; [by left|]. intros [?|(pre & w & post & Heq & _)]; [done|].
    by destruct pre.
  - rewrite forEach_vault_snoc, sync_vault_dirty, orb_true_iff, IH, bool_decide_eq_true.
    split.
    + intros [[?|(pre & w & post & -> & Hne)]|Hne].
      * by left.
      * right. exists pre, w, (post ++ [v]). by rewrite <- app_assoc.
      * right. exists vaults, v, []. by rewrite forEach_vault_snoc.
    + intros [?|(pre & w & post & Heq & Hne)]; [by left; left|].
      destruct post as [|p post _] using rev_ind.
      * apply app_inj_tail in Heq as [-> ->]. right. by rewrite <- forEach_vault_snoc.
      * rewrite app_comm_cons, app_assoc in Heq. apply app_inj_tail in Heq as [-> ->].
        left; right. by exists pre, w, post.
Qed.

Lemma forEach_vault_clean (chain : IChain.t) (vaults : list IVault.t) (s : State) :
  dirty (forEach_vault chain vaults s) = false →
  stratsToHarvest (forEach_vault chain vaults s) = stratsToHarvest s.
Proof.
  induction vaults as [|v vaults IH] using rev_ind; [done|].
  rewrite forEach_vault_snoc, sync_vault_dirty.
  intros [Hd Hsame%bool_decide_eq_false]%orb_false_iff.
  rewrite <- IH by done. by destruct (decide (stratsToHarvest
    (sync_vault chain v (forEach_vault chain vaults s))
    = stratsToHarvest (forEach_vault chain vaults s))).
Qed.

(** ** Entries stay in their slots and their harvest time never goes back *)

Lemma strats_le_refl (l : list (option IStratToHrvst.t)) : strats_le l l.
Proof.
  intros i a Hi. exists a. split; [done|]. destruct a as [x|]; simpl; [|done].
  repeat split; lia.
Qed.

Lemma strats_le_trans (l1 l2 l3 : list (option IStratToHrvst.t)) :
  strats_le l1 l2 → strats_le l2 l3 → strats_le l1 l3.
Proof.
  intros H12 H23 i a Hi. destruct (H12 i a Hi) as (b & Hb & Hab).
  destruct (H23 i b Hb) as (c & Hc & Hbc). exists c. split; [done|].
  destruct a as [x|], b as [y|], c as [z|]; simpl in *; try done.
  destruct Hab as (-> & -> & ?), Hbc as (-> & -> & ?). repeat split; lia.
Qed.

Lemma strats_le_insert (l : list (option IStratToHrvst.t)) (r : nat)
    (a b : option IStratToHrvst.t) :
  l !! r = Some a → slot_le a b → strats_le l (<[r := b]> l).
Proof.
  intros Hr Hab i c Hi. destruct (decide (i = r)) as [->|Hne].
  - exists b. rewrite list_lookup_insert_eq by (by eapply lookup_lt_Some).
    split; [done|]. congruence.
  - exists c. rewrite list_lookup_insert_ne by done. split; [done|].
    by destruct (strats_le_refl l i c Hi) as (? & [= <-]%(eq_trans (eq_sym Hi)) & ?).
Qed.

Lemma sync_vault_strats_le (chain : IChain.t) (vault : IVault.t) (s : State) :
  strats_le (stratsToHarvest s) (stratsToHarvest (sync_vault chain vault s)).
Proof.
  destruct (decide (IChain.id chain = IVault.chain vault)) as [Hc|Hc].
  - pose proof (sync_vault_spec chain vault s Hc) as Hs.
    destruct (findIndex _ _) as [r|]; [destruct Hs as (st & Hr & _ & _ & Hs)|];
      rewrite Hs; destruct (inactive _); simpl.
    + by eapply strats_le_insert.
    + eapply strats_le_insert; [done|]. simpl.
      destruct (harvested_fields vault (routed chain vault st)) as (-> & -> & _ & _ & _ & ->).
      destruct (routed_fields chain vault st) as (-> & -> & _ & _ & -> & _).
      repeat split. case_bool_decide; lia.
    + apply strats_le_refl.
    + intros i a Hi. exists a. rewrite lookup_app_l by (by eapply lookup_lt_Some).
      split; [done|]. by destruct (strats_le_refl _ i a Hi) as (? & [= <-]%(eq_trans (eq_sym Hi)) & ?).
  - rewrite sync_vault_other by done. apply strats_le_refl.
Qed.

Lemma forEach_vault_strats_le (chain : IChain.t) (vaults : list IVault.t) (s : State) :
  strats_le (stratsToHarvest s) (stratsToHarvest (forEach_vault chain vaults s)).
Proof.
  induction vaults as [|v vaults IH] using rev_ind; [apply strats_le_refl|].
  rewrite forEach_vault_snoc. eapply strats_le_trans; [exact IH|].
  apply sync_vault_strats_le.
Qed.

Lemma sweep_strats_le (enc : gset string) (l : list (option IStratToHrvst.t)) (h : Hits.t) :
  strats_le l (sweep enc l h).1.
Proof.
  intros i a Hi. rewrite sweep_lookup, Hi. simpl. eexists. split; [done|].
  destruct a as [x|]; simpl; [|done]. case_bool_decide; simpl; [|done].
  repeat split; lia.
Qed.

Lemma foldl_run_chain_strats_le (estimateGas : IChain.t → nat → bool)
    (chains : list IChain.t) (vaults : list IVault.t) (c : Coordinator) :
  strats_le (co_strats c) (co_strats (foldl (run_chain estimateGas vaults) c chains)).
Proof.
  revert c. induction chains as [|ch chains IH]; intros c; simpl; [apply strats_le_refl|].
  eapply strats_le_trans; [|apply IH]. unfold run_chain, SyncVaults. simpl.
  apply (forEach_vault_strats_le ch vaults
           (mkState (co_strats c) (co_encountered c) (co_hits c) 0 0 [] false)).
Qed.

(** A harvest time is overwritten only by a strictly larger one of the vault. *)
Lemma sync_vault_lastHarvest (chain : IChain.t) (vault : IVault.t) (s : State) (i : nat)
    (e e' : IStratToHrvst.t) :
  stratsToHarvest s !! i = Some (Some e) →
  stratsToHarvest (sync_vault chain vault s) !! i = Some (Some e') →
  IStratToHrvst.lastHarvest e' ≠ IStratToHrvst.lastHarvest e →
  IStratToHrvst.lastHarvest e < IVault.lastHarvest vault
  ∧ IStratToHrvst.lastHarvest e' = IVault.lastHarvest vault.
Proof.
  intros Hi Hi' Hne.
  destruct (decide (IChain.id chain = IVault.chain vault)) as [Hc|Hc].
  - pose proof (sync_vault_spec chain vault s Hc) as Hs.
    destruct (findIndex _ _) as [r|]; [destruct Hs as (st & Hr & _ & _ & Hs)|];
      rewrite Hs in Hi'; destruct (inactive _); simpl in Hi'.
    + destruct (decide (i = r)) as [->|Hir].
      * rewrite list_lookup_insert_eq in Hi' by (by eapply lookup_lt_Some). done.
      * rewrite list_lookup_insert_ne in Hi' by done. congruence.
    + destruct (decide (i = r)) as [->|Hir].
      * rewrite list_lookup_insert_eq in Hi' by (by eapply lookup_lt_Some).
        injection Hi' as <-. rewrite Hr in Hi. injection Hi as ->.
        destruct (harvested_fields vault (routed chain vault e)) as (_ & _ & _ & _ & _ & Hl).
        destruct (routed_fields chain vault e) as (_ & _ & _ & _ & Hl' & _).
        rewrite Hl, Hl' in Hne |- *.
        destruct (bool_decide (IStratToHrvst.lastHarvest e < IVault.lastHarvest vault))
          eqn:Hb; [|done].
        by apply bool_decide_eq_true in Hb.
      * rewrite list_lookup_insert_ne in Hi' by done. congruence.
    + congruence.
    + rewrite lookup_app_l in Hi' by (by eapply lookup_lt_Some). congruence.
  - rewrite sync_vault_other in Hi' by done. congruence.
Qed.


Lemma sweep_compact (enc : gset string) (l : list (option IStratToHrvst.t)) (h : Hits.t) :
  compact (sweep enc l h).1 = filter (λ st, IStratToHrvst.id st ∈ enc) (compact l).
Proof.
  unfold compact. revert h. induction l as [|[st|] l IH]; intros h; simpl; [done|..].
  - case_bool_decide as Hin.
    + specialize (IH h). destruct (sweep enc l h). simpl in *.
      rewrite filter_cons_True by done. by f_equal.
    + specialize (IH (Hits.add (IStratToHrvst.id st) removed_decomissioned h)).
      destruct (sweep enc l _). simpl in *. by rewrite filter_cons_False by done.
  - specialize (IH h). by destruct (sweep enc l h).
Qed.


(** ** Routing *)

Lemma onChainHarvest_eligible (chain : IChain.t) (vault : IVault.t) :
  onChainHarvest chain vault = eligible chain vault.
Proof.
  unfold onChainHarvest, eligible, denyOnChainHarvest.
  destruct (IChain.hasOnChainHarvesting chain); simpl; [|done].
  case_bool_decide; by rewrite ?bool_decide_true, ?bool_decide_false by auto.
Qed.

Lemma switch_needed_spec (chain : IChain.t) (vault : IVault.t) (st : IStratToHrvst.t) :
  switch_needed chain vault st = true ↔
  IChain.hasOnChainHarvesting chain = true
  ∧ eligible chain vault ≠ negb (truthy (IStratToHrvst.noOnChainHrvst st)).
Proof.
  unfold switch_needed. rewrite onChainHarvest_eligible. unfold eligible.
  destruct (IChain.hasOnChainHarvesting chain),
    (bool_decide (IVault.earnedToken vault ∉ IChain.vaultDenyList chain)),
    (truthy (IStratToHrvst.noOnChainHrvst st)); simpl; intuition congruence.
Qed.


(** ** The entry of a deny-listed vault *)

Lemma run_chains_encountered (estimateGas : IChain.t → nat → bool)
    (chains : list IChain.t) (vaults : list IVault.t) (strats : list IStratToHrvst.t)
    (x : string) :
  x ∈ co_encountered (run_chains estimateGas chains vaults strats) ↔
  ∃ v, v ∈ vaults ∧ IVault.id v = x
       ∧ (IVault.status v ≠ "eol" ∧ IVault.status v ≠ "paused")
       ∧ ∃ chain, chain ∈ chains ∧ IChain.id chain = IVault.chain v.
Proof.
  unfold run_chains. rewrite foldl_run_chain_encountered.
  cbn [co_encountered]. split.
  - intros [Hx|(v & ? & ? & Hi%inactive_false & ?)]; [set_solver|]. by exists v.
  - intros (v & ? & ? & Hi%inactive_false & ?). right. by exists v.
Qed.

Lemma findIndex_insert_same {A} (p : A → bool) (l : list A) (r : nat) (b : A) :
  findIndex p l = Some r → p b = true → findIndex p (<[r := b]> l) = Some r.
Proof.
  intros [(x & Hx & Hpx) Hlt]%findIndex_Some Hb. apply findIndex_Some. split.
  - exists b. split; [|done]. apply list_lookup_insert_eq. by eapply lookup_lt_Some.
  - intros j y Hj Hy. rewrite list_lookup_insert_ne in Hy by lia. by eapply Hlt.
Qed.

Lemma findIndex_insert_other {A} (p : A → bool) (l : list A) (r r' : nat) (b : A) :
  findIndex p l = Some r → r' ≠ r → p b = false → findIndex p (<[r' := b]> l) = Some r.
Proof.
  intros [(x & Hx & Hpx) Hlt]%findIndex_Some Hne Hb. apply findIndex_Some. split.
  - exists x. rewrite list_lookup_insert_ne by done. by split.
  - intros j y Hj Hy. destruct (decide (j = r')) as [->|Hjr].
    + pose proof (lookup_lt_Some _ _ _ Hy) as Hlen. rewrite length_insert in Hlen.
      rewrite list_lookup_insert_eq in Hy by done. congruence.
    + rewrite list_lookup_insert_ne in Hy by done. by eapply Hlt.
Qed.

Lemma findIndex_app_l {A} (p : A → bool) (l l' : list A) (r : nat) :
  findIndex p l = Some r → findIndex p (l ++ l') = Some r.
Proof.
  intros [(x & Hx & Hpx) Hlt]%findIndex_Some. apply findIndex_Some. split.
  - exists x. rewrite lookup_app_l by (by eapply lookup_lt_Some). by split.
  - intros j y Hj Hy. apply lookup_lt_Some in Hx as Hr.
    rewrite lookup_app_l in Hy by lia. by eapply Hlt.
Qed.

Lemma findIndex_snoc {A} (p : A → bool) (l : list A) (b : A) :
  findIndex p l = None → p b = true → findIndex p (l ++ [b]) = Some (length l).
Proof.
  intros Hnone Hb. apply findIndex_Some. split.
  - exists b. rewrite lookup_app_r, Nat.sub_diag by lia. by split.
  - intros j y Hj Hy. rewrite lookup_app_l in Hy by done.
    eapply findIndex_None; [done|]. apply list_elem_of_lookup. by exists j.
Qed.

Lemma matches_updated (chain : IChain.t) (v w : IVault.t) (st : IStratToHrvst.t) :
  matches v (Some (harvested w (routed chain w st))) = matches v (Some st).
Proof.
  unfold matches.
  destruct (harvested_fields w (routed chain w st)) as (-> & _ & _ & -> & _).
  by destruct (routed_fields chain w st) as (-> & _ & _ & -> & _).
Qed.

Lemma matches_entry_of (chain : IChain.t) (v w : IVault.t) :
  matches v (Some (routed chain w (entry_of w)))
  = bool_decide (IVault.strategy v = IVault.strategy w)
    && bool_decide (IVault.id v = IVault.id w).
Proof.
  unfold matches.
  by destruct (routed_fields chain w (entry_of w)) as (-> & _ & _ & -> & _).
Qed.

Lemma matches_same_key (v w : IVault.t) (st : IStratToHrvst.t) :
  matches v (Some st) = true → matches w (Some st) = true → same_key v w.
Proof.
  intros (? & [= <-] & ? & ?)%matches_Some (? & [= <-] & ? & ?)%matches_Some.
  split; congruence.
Qed.

(** Processing an active vault of the chain leaves its entry, found or
    created, in the state the routing and the update give it. *)
Lemma sync_vault_first_match_self (P : IStratToHrvst.t → Prop) (chain : IChain.t)
    (v : IVault.t) (s : State) :
  IChain.id chain = IVault.chain v →
  inactive (IVault.status v) = false →
  (∀ st, P (harvested v (routed chain v st))) →
  first_match P v (stratsToHarvest (sync_vault chain v s)).
Proof.
  intros Hc Hact HP.
  pose proof (sync_vault_spec chain v s Hc) as Hs. rewrite Hact in Hs.
  destruct (findIndex _ _) as [r|] eqn:Hfind.
  - destruct Hs as (st & Hr & Hstrat & Hid & Hs). rewrite Hs.
    cbn [stratsToHarvest].
    exists r, (harvested v (routed chain v st)). split; [|split].
    + apply findIndex_insert_same; [done|]. rewrite matches_updated.
      apply matches_Some. by exists st.
    + apply list_lookup_insert_eq. by eapply lookup_lt_Some.
    + apply HP.
  - rewrite Hs. cbn [stratsToHarvest].
    exists (length (stratsToHarvest s)), (routed chain v (entry_of v)). split; [|split].
    + apply findIndex_snoc; [done|]. rewrite matches_entry_of.
      by rewrite !bool_decide_true.
    + by rewrite lookup_app_r, Nat.sub_diag by lia.
    + replace (routed chain v (entry_of v))
        with (harvested v (routed chain v (entry_of v))); [apply HP|].
      unfold harvested.
      destruct (routed_fields chain v (entry_of v)) as (_ & _ & _ & _ & -> & _).
      cbn [entry_of IStratToHrvst.lastHarvest]. rewrite bool_decide_false; [done|lia].
Qed.

(** Processing a vault with another (strategy, id) leaves the entry found
    for the vault as it is. *)
Lemma sync_vault_first_match_other (P : IStratToHrvst.t → Prop) (chain : IChain.t)
    (v w : IVault.t) (s : State) :
  ¬ same_key v w →
  first_match P v (stratsToHarvest s) →
  first_match P v (stratsToHarvest (sync_vault chain w s)).
Proof.
  intros Hkey (r & st & Hfind & Hr & HP).
  assert (Hmv : matches v (Some st) = true).
  { apply findIndex_Some in Hfind as [(x & Hx & Hpx) _]. congruence. }
  destruct (decide (IChain.id chain = IVault.chain w)) as [Hc|Hc];
    [|rewrite sync_vault_other by done; by exists r, st].
  pose proof (sync_vault_spec chain w s Hc) as Hs.
  destruct (findIndex (matches w) _) as [r'|] eqn:Hfind'.
  - destruct Hs as (st' & Hr' & Hstrat' & Hid' & Hs).
    assert (Hne : r' ≠ r).
    { intros ->. apply Hkey. apply (matches_same_key v w st); [done|].
      rewrite Hr in Hr'. injection Hr' as ->. apply matches_Some. by exists st'. }
    assert (Hmw : matches v (Some st') = false).
    { destruct (matches v (Some st')) eqn:Hm; [|done]. exfalso. apply Hkey.
      apply (matches_same_key v w st'); [done|]. apply matches_Some. by exists st'. }
    rewrite Hs. destruct (inactive _); cbn [stratsToHarvest]; exists r, st.
    + split; [by apply findIndex_insert_other|]. by rewrite list_lookup_insert_ne.
    + split; [apply findIndex_insert_other; [done..|by rewrite matches_updated]|].
      by rewrite list_lookup_insert_ne.
  - rewrite Hs. destruct (inactive _); [by exists r, st|]. cbn [stratsToHarvest].
    exists r, st. split; [by apply findIndex_app_l|].
    split; [|done]. by rewrite lookup_app_l by (by eapply lookup_lt_Some).
Qed.

Lemma run_chain_strats (estimateGas : IChain.t → nat → bool) (vaults : list IVault.t)
    (co : Coordinator) (c : IChain.t) :
  co_strats (run_chain estimateGas vaults co c)
  = stratsToHarvest (forEach_vault c vaults
      (mkState (co_strats co) (co_encountered co) (co_hits co) 0 0 [] false)).
Proof. done. Qed.

(** An active vault [v] of a reconciled chain, alone in the catalog with its
    (strategy, id) and on a chain that is alone with its id: whatever the
    routing and the update establish for its entry holds after all passes. *)
Section ActiveVault.

Variable estimateGas : IChain.t → nat → bool.
Variable chains : list IChain.t.
Variable vaults : list IVault.t.
Variable chain : IChain.t.
Variable v : IVault.t.
Variable P : IStratToHrvst.t → Prop.

Hypothesis chain_of_v : IChain.id chain = IVault.chain v.
Hypothesis v_active : inactive (IVault.status v) = false.
Hypothesis key_unique : ∀ w, w ∈ vaults → same_key v w → w = v.
Hypothesis chain_unique : ∀ c, c ∈ chains → IChain.id c = IChain.id chain → c = chain.
Hypothesis P_established : ∀ st, P (harvested v (routed chain v st)).

Lemma sync_vault_keeps_first_match (c : IChain.t) (w : IVault.t) (s : State) :
  c ∈ chains → w ∈ vaults →
  first_match P v (stratsToHarvest s) →
  first_match P v (stratsToHarvest (sync_vault c w s)).
Proof.
  intros Hc Hw HQ.
  destruct (decide (IChain.id c = IVault.chain w)) as [Hcw|Hcw];
    [|by rewrite sync_vault_other].
  destruct (decide (IVault.strategy v = IVault.strategy w ∧ IVault.id v = IVault.id w))
    as [Hkey|Hkey]; [|by apply sync_vault_first_match_other].
  apply key_unique in Hkey as ->; [|done].
  assert (c = chain) as -> by (apply chain_unique; [done|congruence]).
  by apply sync_vault_first_match_self.
Qed.

Lemma forEach_vault_keeps_first_match (c : IChain.t) (ws : list IVault.t) (s : State) :
  c ∈ chains → ws ⊆ vaults →
  first_match P v (stratsToHarvest s) →
  first_match P v (stratsToHarvest (forEach_vault c ws s)).
Proof.
  intros Hc. unfold forEach_vault. revert s.
  induction ws as [|w ws IH]; intros s Hws HQ; simpl; [done|].
  apply IH; [set_solver|]. apply sync_vault_keeps_first_match; [done|set_solver|done].
Qed.

Lemma forEach_vault_sets_first_match (ws : list IVault.t) (s : State) :
  chain ∈ chains → ws ⊆ vaults → v ∈ ws →
  first_match P v (stratsToHarvest (forEach_vault chain ws s)).
Proof.
  intros Hc. revert s.
  induction ws as [|w ws IH]; intros s Hws Hv; [by apply elem_of_nil in Hv|].
  apply elem_of_cons in Hv as [<-|Hv].
  - apply (forEach_vault_keeps_first_match chain ws); [done|set_solver|].
    by apply sync_vault_first_match_self.
  - apply IH; [set_solver|done].
Qed.

Lemma foldl_run_chain_keeps_first_match (cs : list IChain.t) (co : Coordinator) :
  cs ⊆ chains →
  first_match P v (co_strats co) →
  first_match P v (co_strats (foldl (run_chain estimateGas vaults) co cs)).
Proof.
  revert co. induction cs as [|c cs IH]; intros co Hcs HQ; simpl; [done|].
  apply IH; [set_solver|]. rewrite run_chain_strats.
  apply forEach_vault_keeps_first_match; [set_solver|done|done].
Qed.

Lemma foldl_run_chain_sets_first_match (cs : list IChain.t) (co : Coordinator) :
  cs ⊆ chains → chain ∈ cs → v ∈ vaults →
  first_match P v (co_strats (foldl (run_chain estimateGas vaults) co cs)).
Proof.
  intros Hcs Hc Hv. revert co Hcs Hc.
  induction cs as [|c cs IH]; intros co Hcs Hc; [by apply elem_of_nil in Hc|].
  apply elem_of_cons in Hc as [<-|Hc]; simpl.
  - apply foldl_run_chain_keeps_first_match; [set_solver|]. rewrite run_chain_strats.
    apply forEach_vault_sets_first_match; [set_solver|done|done].
  - apply IH; [set_solver|done].
Qed.

End ActiveVault.

Lemma sweep_keeps_first_match (P : IStratToHrvst.t → Prop) (v : IVault.t)
    (enc : gset string) (l : list (option IStratToHrvst.t)) (h : Hits.t) :
  IVault.id v ∈ enc →
  first_match P v l → first_match P v (sweep enc l h).1.
Proof.
  intros Henc (r & st & Hfind & Hr & HP).
  apply findIndex_Some in Hfind as [(x & Hx & Hpx) Hlt].
  assert (x = Some st) as -> by congruence.
  assert (Hid : IStratToHrvst.id st ∈ enc).
  { apply matches_Some in Hpx as (? & [= <-] & _ & Hid). by rewrite Hid. }
  assert (Hr' : (sweep enc l h).1 !! r = Some (Some st)).
  { rewrite sweep_lookup, Hr. cbn [fmap option_fmap option_map].
    by rewrite bool_decide_true. }
  exists r, st. split; [|done].
  apply findIndex_Some. split; [by exists (Some st)|].
  intros j y Hj. rewrite sweep_lookup.
  destruct (l !! j) as [[z|]|] eqn:Hz; cbn [fmap option_fmap option_map];
    [|by intros [= <-]|done].
  case_bool_decide; intros [= <-]; [|done]. by eapply Hlt.
Qed.

(** After a whole run. *)
Lemma reconcile_first_match (P : IStratToHrvst.t → Prop)
    (estimateGas : IChain.t → nat → bool)
    (chains : list IChain.t) (vaults : list IVault.t) (strats : list IStratToHrvst.t)
    (chain : IChain.t) (v : IVault.t) :
  chain ∈ chains → v ∈ vaults →
  IChain.id chain = IVault.chain v →
  inactive (IVault.status v) = false →
  (∀ w, w ∈ vaults → same_key v w → w = v) →
  (∀ c, c ∈ chains → IChain.id c = IChain.id chain → c = chain) →
  (∀ st, P (harvested v (routed chain v st))) →
  first_match P v (co_strats (reconcile estimateGas chains vaults strats)).
Proof.
  intros Hc Hv Hcv Hact Hkey Hchain HP.
  unfold reconcile. rewrite run_sweep_strats. apply sweep_keeps_first_match.
  - apply run_chains_encountered. exists v.
    split; [done|]. split; [done|]. split; [by apply inactive_false|].
    by exists chain.
  - unfold run_chains.
    by apply (foldl_run_chain_sets_first_match estimateGas chains vaults chain v P).
Qed.

(** The flag of an entry after the routing decision for a denied token. *)
Lemma routed_denied (chain : IChain.t) (v : IVault.t) (st : IStratToHrvst.t) :
  IChain.hasOnChainHarvesting chain = true →
  IVault.earnedToken v ∈ IChain.vaultDenyList chain →
  IStratToHrvst.noOnChainHrvst (harvested v (routed chain v st)) = Some true.
Proof.
  intros Hon Hdeny.
  assert (Hel : onChainHarvest chain v = false).
  { rewrite onChainHarvest_eligible. unfold eligible.
    rewrite Hon, bool_decide_false; [done|]. auto. }
  destruct (harvested_fields v (routed chain v st)) as (_ & _ & _ & _ & -> & _).
  destruct (routed_fields chain v st) as (_ & _ & _ & _ & _ & ->).
  unfold switch_needed. rewrite Hel, Hon. simpl.
  by destruct (IStratToHrvst.noOnChainHrvst st) as [[]|].
Qed.

(** ** A run from the list the previous run saved *)

Lemma update_idempotent (chain : IChain.t) (v : IVault.t) (st : IStratToHrvst.t) :
  settled chain v (harvested v (routed chain v st)).
Proof.
  apply updated_same.
  destruct (harvested_fields v (routed chain v st)) as (_ & _ & _ & _ & Hf & Hl).
  destruct (routed_fields chain v st) as (_ & _ & _ & _ & Hl' & Hf').
  split.
  - unfold switch_needed at 1. rewrite Hf, Hf'. unfold switch_needed.
    destruct (onChainHarvest chain v), (IChain.hasOnChainHarvesting chain),
      (IStratToHrvst.noOnChainHrvst st) as [[]|]; done.
  - apply bool_decide_eq_false. rewrite Hl, Hl'.
    destruct (bool_decide (IStratToHrvst.lastHarvest st < IVault.lastHarvest v)) eqn:Hb;
      [apply bool_decide_eq_true in Hb|apply bool_decide_eq_false in Hb]; lia.
Qed.

Lemma sync_vault_settled (chain : IChain.t) (w : IVault.t) (s : State) :
  IChain.id chain = IVault.chain w →
  inactive (IVault.status w) = false →
  first_match (settled chain w) w (stratsToHarvest s) →
  stratsToHarvest (sync_vault chain w s) = stratsToHarvest s
  ∧ hits (sync_vault chain w s) = hits s
  ∧ dirty (sync_vault chain w s) = dirty s.
Proof.
  intros Hc Hact (r & st & Hfind & Hr & Hset).
  pose proof (sync_vault_spec chain w s Hc) as Hs. rewrite Hfind, Hact in Hs.
  destruct Hs as (st' & Hr' & _ & _ & Hs).
  assert (st' = st) as -> by congruence.
  pose proof (proj1 (updated_same chain w st) Hset) as [Hsw Hlt].
  rewrite Hs, Hset, Hsw, Hlt. cbn [stratsToHarvest hits dirty].
  rewrite list_insert_id by done. by rewrite !orb_false_r.
Qed.

Lemma sync_vault_absent (chain : IChain.t) (w : IVault.t) (s : State) :
  inactive (IVault.status w) = true →
  findIndex (matches w) (stratsToHarvest s) = None →
  sync_vault chain w s = s.
Proof.
  intros Hin Hfind.
  destruct (decide (IChain.id chain = IVault.chain w)) as [Hc|Hc];
    [|by apply sync_vault_other].
  pose proof (sync_vault_spec chain w s Hc) as Hs. by rewrite Hfind, Hin in Hs.
Qed.

Lemma forEach_vault_idle (chain : IChain.t) (ws : list IVault.t) (s : State) :
  Forall (in_step chain (stratsToHarvest s)) ws →
  stratsToHarvest (forEach_vault chain ws s) = stratsToHarvest s
  ∧ hits (forEach_vault chain ws s) = hits s
  ∧ dirty (forEach_vault chain ws s) = dirty s.
Proof.
  unfold forEach_vault. revert s.
  induction ws as [|w ws IH]; intros s Hall; simpl; [done|].
  apply Forall_cons in Hall as [Hw Hall].
  assert (Hstep : stratsToHarvest (sync_vault chain w s) = stratsToHarvest s
                  ∧ hits (sync_vault chain w s) = hits s
                  ∧ dirty (sync_vault chain w s) = dirty s).
  { destruct (decide (IChain.id chain = IVault.chain w)) as [Hc|Hc];
      [|by rewrite sync_vault_other].
    specialize (Hw Hc). destruct (inactive (IVault.status w)) eqn:Hin.
    - by rewrite sync_vault_absent.
    - by apply sync_vault_settled. }
  destruct Hstep as (Hl & Hh & Hd).
  destruct (IH (sync_vault chain w s)) as (Hl' & Hh' & Hd'); [by rewrite Hl|].
  by rewrite Hl', Hh', Hd'.
Qed.

Lemma run_chain_hits (estimateGas : IChain.t → nat → bool) (vaults : list IVault.t)
    (co : Coordinator) (c : IChain.t) :
  co_hits (run_chain estimateGas vaults co c)
  = hits (forEach_vault c vaults
      (mkState (co_strats co) (co_encountered co) (co_hits co) 0 0 [] false)).
Proof. done. Qed.

Lemma foldl_run_chain_idle (estimateGas : IChain.t → nat → bool)
    (chains : list IChain.t) (vaults : list IVault.t) (co : Coordinator) :
  Forall (λ chain, Forall (in_step chain (co_strats co)) vaults) chains →
  co_strats (foldl (run_chain estimateGas vaults) co chains) = co_strats co
  ∧ co_hits (foldl (run_chain estimateGas vaults) co chains) = co_hits co.
Proof.
  revert co. induction chains as [|c chains IH]; intros co Hall; simpl; [done|].
  apply Forall_cons in Hall as [Hc Hall].
  pose proof (forEach_vault_idle c vaults
    (mkState (co_strats co) (co_encountered co) (co_hits co) 0 0 [] false) Hc)
    as (Hl & Hh & _).
  cbn [stratsToHarvest hits] in Hl, Hh.
  destruct (IH (run_chain estimateGas vaults co c)) as (Hl' & Hh').
  { by rewrite run_chain_strats, Hl. }
  by rewrite Hl', Hh', run_chain_strats, run_chain_hits, Hl, Hh.
Qed.

Lemma sweep_idle (enc : gset string) (l : list (option IStratToHrvst.t)) (h : Hits.t) :
  (∀ st, Some st ∈ l → IStratToHrvst.id st ∈ enc) →
  sweep enc l h = (l, h).
Proof.
  induction l as [|[st|] l IH]; intros Hall; simpl; [done|..].
  - rewrite bool_decide_true by (apply Hall; by left).
    rewrite IH; [done|]. intros st' Hst'. apply Hall. by right.
  - rewrite IH; [done|]. intros st' Hst'. apply Hall. by right.
Qed.

Lemma compact_Some (l : list IStratToHrvst.t) : compact (Some <$> l) = l.
Proof. unfold compact. induction l as [|x l IH]; simpl; [done|]. by f_equal. Qed.

Lemma compact_cons_Some (x : IStratToHrvst.t) (l : list (option IStratToHrvst.t)) :
  compact (Some x :: l) = x :: compact l.
Proof. done. Qed.

Lemma compact_cons_None (l : list (option IStratToHrvst.t)) :
  compact (None :: l) = compact l.
Proof. done. Qed.

Lemma findIndex_cons {A} (p : A → bool) (x : A) (l : list A) :
  findIndex p (x :: l) = if p x then Some 0%nat else S <$> findIndex p l.
Proof. done. Qed.

Lemma first_match_compact (P : IStratToHrvst.t → Prop) (v : IVault.t)
    (l : list (option IStratToHrvst.t)) :
  first_match P v l → first_match P v (Some <$> compact l).
Proof.
  intros (r & st & Hfind & Hr & HP). revert r Hfind Hr.
  induction l as [|[x|] l IH]; intros r Hfind Hr; [done|..].
  - rewrite compact_cons_Some, fmap_cons. rewrite findIndex_cons in Hfind.
    destruct (matches v (Some x)) eqn:Hm.
    + injection Hfind as <-. injection Hr as ->. exists 0%nat, st.
      by rewrite findIndex_cons, Hm.
    + destruct (findIndex (matches v) l) as [k|] eqn:Hk; [|done].
      injection Hfind as <-. destruct (IH k eq_refl Hr) as (r' & st' & Hf' & Hr' & HP').
      exists (S r'), st'. by rewrite findIndex_cons, Hm, Hf'.
  - rewrite compact_cons_None. rewrite findIndex_cons in Hfind.
    change (matches v None) with false in Hfind.
    destruct (findIndex (matches v) l) as [k|] eqn:Hk; [|done].
    injection Hfind as <-. exact (IH k eq_refl Hr).
Qed.

Lemma no_match_without_id (w : IVault.t) (l : list IStratToHrvst.t) :
  (∀ st, st ∈ l → IStratToHrvst.id st ≠ IVault.id w) →
  findIndex (matches w) (Some <$> l) = None.
Proof.
  intros Hall. apply findIndex_None. intros o (st & -> & Hst)%list_elem_of_fmap.
  destruct (matches w (Some st)) eqn:Hm; [|done].
  apply matches_Some in Hm as (? & [= <-] & _ & Hid). by apply Hall in Hst.
Qed.

Section SecondRun.

Variable estimateGas estimateGas' : IChain.t → nat → bool.
Variable chains : list IChain.t.
Variable vaults : list IVault.t.
Variable strats : list IStratToHrvst.t.

Hypothesis id_unique :
  ∀ w1 w2, w1 ∈ vaults → w2 ∈ vaults → IVault.id w1 = IVault.id w2 → w1 = w2.
Hypothesis chain_unique :
  ∀ c1 c2, c1 ∈ chains → c2 ∈ chains → IChain.id c1 = IChain.id c2 → c1 = c2.

Let saved := compact (co_strats (reconcile estimateGas chains vaults strats)).

Lemma saved_encountered (st : IStratToHrvst.t) :
  st ∈ saved →
  IStratToHrvst.id st ∈ co_encountered (run_chains estimateGas chains vaults strats).
Proof.
  unfold saved, reconcile. rewrite run_sweep_strats, sweep_compact.
  by intros [? _]%list_elem_of_filter.
Qed.

Lemma saved_in_step (chain : IChain.t) (w : IVault.t) :
  chain ∈ chains → w ∈ vaults → in_step chain (Some <$> saved) w.
Proof.
  intros Hc Hw Hcw. destruct (inactive (IVault.status w)) eqn:Hin.
  - apply no_match_without_id. intros st Hst%saved_encountered Hid.
    rewrite Hid in Hst. apply run_chains_encountered in Hst
      as (w' & Hw' & Hid' & Hact%inactive_false & _).
    apply (id_unique w' w Hw' Hw) in Hid' as ->. congruence.
  - apply first_match_compact.
    apply (reconcile_first_match _ estimateGas chains vaults strats chain w);
      try done.
    + intros w' Hw' [_ Hid]. by apply id_unique.
    + intros c ? ?. by apply chain_unique.
    + intros st. apply update_idempotent.
Qed.

Lemma second_run_idle :
  co_hits (reconcile estimateGas' chains vaults saved) = []
  ∧ compact (co_strats (reconcile estimateGas' chains vaults saved)) = saved.
Proof.
  unfold reconcile.
  assert (Hidle : co_strats (run_chains estimateGas' chains vaults saved) = Some <$> saved
                  ∧ co_hits (run_chains estimateGas' chains vaults saved) = []).
  { pose proof (foldl_run_chain_idle estimateGas' chains vaults
                  (mkCoordinator (Some <$> saved) ∅ Hits.empty false)) as Hidle.
    cbn [co_strats co_hits] in Hidle. apply Hidle.
    apply Forall_forall. intros c Hc. apply Forall_forall. intros w Hw.
    by apply saved_in_step. }
  destruct Hidle as (Hl & Hh).
  rewrite run_sweep_hits, run_sweep_strats, Hl, Hh, sweep_idle;
    [cbn [fst snd]; by rewrite compact_Some|].
  intros st (st' & [= <-] & Hst)%list_elem_of_fmap.
  apply run_chains_encountered.
  apply saved_encountered in Hst. by apply run_chains_encountered in Hst.
Qed.

End SecondRun.

(** * The claims *)

(** C1. The saved list can hold two entries with the same chain and id: when
    the vault of an entry reports a new strategy, the lookup by (strategy, id)
    misses the entry, an entry is added for the vault, and the sweep keeps
    the old one because its id was encountered.  The update of [strategy] in
    place (lines 122-127) is never reached. *)
Theorem migrated_strategy_leaves_two_entries (estimateGas : IChain.t → nat → bool) :
  let old := entry_v1 "mooOne" "0xA" 100 None in
  let new := entry_v1 "mooOne" "0xB" 100 None in
  let run := main estimateGas [bsc_on_chain]
               (Fetched true true (Some [vault_v1 "mooOne" "0xB" "active" 100]))
               (Required [old]) in
  stratsToHrvst_json (written run) = Some [old; new]
  ∧ stratsSync_json (written run) = Some [mkHit "v1" (One added)]
  ∧ old ≠ new ∧ same_chain_id old new.
Proof.
  repeat split. discriminate.
Qed.

(** C2 (as amended). Let a vault of the chain be active, so that its entry is
    found or created.  On a chain with [hasOnChainHarvesting], whenever
    eligibility disagrees with the inverse of the entry's [noOnChainHrvst]
    the flag becomes the negation of eligibility; for an entry that was found
    this sets [dirty] and calls [Hits.add] with ['on-chain-harvest switch']
    (which records it unless the id is empty or the name of an inherited
    property), for an entry just created the only call of [Hits.add] is the
    one for ['added'].  When they agree, and on
    every chain without [hasOnChainHarvesting], the flag and, for a found
    entry, the hit log are left as they are. *)
Theorem routing_flag_follows_eligibility (chain : IChain.t) (vault : IVault.t) (s : State) :
  IChain.id chain = IVault.chain vault →
  inactive (IVault.status vault) = false →
  match findIndex (matches vault) (stratsToHarvest s) with
  | Some r =>
      ∃ st st',
        stratsToHarvest s !! r = Some (Some st)
        ∧ stratsToHarvest (sync_vault chain vault s) !! r = Some (Some st')
        ∧ (IChain.hasOnChainHarvesting chain = true →
           eligible chain vault ≠ negb (truthy (IStratToHrvst.noOnChainHrvst st)) →
           IStratToHrvst.noOnChainHrvst st' = Some (negb (eligible chain vault))
           ∧ dirty (sync_vault chain vault s) = true
           ∧ hits (sync_vault chain vault s)
             = Hits.add (IVault.id vault) on_chain_harvest_switch (hits s))
        ∧ (IChain.hasOnChainHarvesting chain = false
           ∨ eligible chain vault = negb (truthy (IStratToHrvst.noOnChainHrvst st)) →
           IStratToHrvst.noOnChainHrvst st' = IStratToHrvst.noOnChainHrvst st
           ∧ hits (sync_vault chain vault s) = hits s)
  | None =>
      ∃ st',
        stratsToHarvest (sync_vault chain vault s) !! length (stratsToHarvest s)
        = Some (Some st')
        ∧ hits (sync_vault chain vault s) = Hits.add (IVault.id vault) added (hits s)
        ∧ (IChain.hasOnChainHarvesting chain = true →
           eligible chain vault ≠ negb (truthy None) →
           IStratToHrvst.noOnChainHrvst st' = Some (negb (eligible chain vault)))
        ∧ (IChain.hasOnChainHarvesting chain = false
           ∨ eligible chain vault = negb (truthy None) →
           IStratToHrvst.noOnChainHrvst st' = None)
  end.
Proof.
  intros Hc Hact. pose proof (sync_vault_spec chain vault s Hc) as Hs.
  rewrite Hact in Hs.
  destruct (findIndex _ _) as [r|].
  - destruct Hs as (st & Hr & _ & _ & Hs). rewrite Hs.
    cbn [stratsToHarvest dirty hits].
    exists st, (harvested vault (routed chain vault st)).
    rewrite list_lookup_insert_eq by (by eapply lookup_lt_Some).
    destruct (harvested_fields vault (routed chain vault st)) as (_ & _ & _ & _ & -> & _).
    destruct (routed_fields chain vault st) as (_ & _ & _ & _ & _ & ->).
    rewrite onChainHarvest_eligible.
    pose proof (switch_needed_spec chain vault st) as Hsw.
    destruct (switch_needed chain vault st).
    + destruct Hsw as [[Hon Hdis] _]; [done|].
      split; [done|]. split; [done|]. split.
      * intros _ _. split; [done|]. split; [by rewrite orb_true_r|done].
      * intros [Hoff|Hagree]; congruence.
    + split; [done|]. split; [done|]. split.
      * intros Hon Hdis. destruct Hsw as [_ Hsw]. by specialize (Hsw (conj Hon Hdis)).
      * done.
  - rewrite Hs. cbn [stratsToHarvest dirty hits].
    exists (routed chain vault (entry_of vault)).
    rewrite lookup_app_r, Nat.sub_diag by lia.
    destruct (routed_fields chain vault (entry_of vault)) as (_ & _ & _ & _ & _ & ->).
    rewrite onChainHarvest_eligible.
    pose proof (switch_needed_spec chain vault (entry_of vault)) as Hsw.
    cbn [entry_of IStratToHrvst.noOnChainHrvst] in *.
    destruct (switch_needed chain vault (entry_of vault)).
    + destruct Hsw as [[Hon Hdis] _]; [done|].
      split; [done|]. split; [done|]. split; [done|].
      intros [Hoff|Hagree]; congruence.
    + split; [done|]. split; [done|]. split; [|done].
      intros Hon Hdis. destruct Hsw as [_ Hsw]. by specialize (Hsw (conj Hon Hdis)).
Qed.

(** An instance, Scenario 5 of the specification: on a chain with on-chain
    harvesting an entry flagged [true] whose token is not denied is switched. *)
Lemma routing_flag_follows_eligibility_witness :
  let entry := entry_v1 "mooOne" "0xA" 100 (Some true) in
  let vault := vault_v1 "mooOne" "0xA" "active" 100 in
  let s := sync_vault bsc_on_chain vault (start_from [entry]) in
  IChain.id bsc_on_chain = IVault.chain vault
  ∧ inactive (IVault.status vault) = false
  ∧ ∃ st', stratsToHarvest s !! 0%nat = Some (Some st')
      ∧ IStratToHrvst.noOnChainHrvst st' = Some false
      ∧ dirty s = true
      ∧ hits s = [mkHit "v1" (One on_chain_harvest_switch)].
Proof.
  intros entry vault s. split; [reflexivity|]. split; [reflexivity|].
  pose proof (routing_flag_follows_eligibility bsc_on_chain vault (start_from [entry])
                eq_refl eq_refl) as H.
  change (findIndex (matches vault) (stratsToHarvest (start_from [entry])))
    with (Some 0%nat) in H.
  destruct H as (st & st' & Hst & Hst' & Hswitch & _).
  injection Hst as <-.
  destruct Hswitch as (Hflag & Hdirty & Hhits); [reflexivity|discriminate|].
  exists st'. split; [exact Hst'|]. split; [exact Hflag|]. split; [exact Hdirty|].
  exact Hhits.
Defined.

(** C2 as stated does not hold on a chain without [hasOnChainHarvesting]:
    eligibility ([false]) disagrees with the inverse of the unset flag
    ([true]), but the flag is not set, [dirty] stays [false] and nothing is
    logged. *)
Lemma no_switch_without_on_chain_harvesting :
  let chain := polygon_off_chain in
  let vault := IVault.mk "v1" "polygon" "0xE1" "mooOne" "0xA" "active" 100 in
  let entry := IStratToHrvst.mk "v1" "polygon" "0xE1" "mooOne" "0xA" 100 None in
  let s := sync_vault chain vault (start_from [entry]) in
  findIndex (matches vault) (stratsToHarvest (start_from [entry])) = Some 0%nat
  ∧ eligible chain vault = false
  ∧ negb (truthy (IStratToHrvst.noOnChainHrvst entry)) = true
  ∧ stratsToHarvest s = [Some entry]
  ∧ dirty s = false
  ∧ hits s = [].
Proof.
  repeat split.
Qed.

(** C3 (as amended). After all chain reconcilers have completed (and likewise
    after the sweep, which does not touch the set), an id is in the
    encountered set exactly when the catalog holds a vault record with that id
    whose status is neither ['eol'] nor ['paused'] and whose chain is one of
    the chains the run reconciles. *)
Theorem encountered_exactly_active (estimateGas : IChain.t → nat → bool)
    (chains : list IChain.t) (vaults : list IVault.t) (strats : list IStratToHrvst.t)
    (x : string) :
  let active_id :=
    ∃ v, v ∈ vaults ∧ IVault.id v = x
         ∧ (IVault.status v ≠ "eol" ∧ IVault.status v ≠ "paused")
         ∧ ∃ chain, chain ∈ chains ∧ IChain.id chain = IVault.chain v in
  (x ∈ co_encountered (run_chains estimateGas chains vaults strats) ↔ active_id)
  ∧ (x ∈ co_encountered (reconcile estimateGas chains vaults strats) ↔ active_id).
Proof.
  intros active_id. split; [apply run_chains_encountered|].
  unfold reconcile. rewrite run_sweep_encountered. apply run_chains_encountered.
Qed.

(** An instance: the id of an active vault of a reconciled chain. *)
Lemma encountered_exactly_active_witness :
  "v1" ∈ co_encountered
           (reconcile no_estimate [bsc_on_chain]
              [vault_v1 "mooOne" "0xA" "active" 100] []).
Proof.
  apply (encountered_exactly_active no_estimate [bsc_on_chain]
           [vault_v1 "mooOne" "0xA" "active" 100] [] "v1").
  exists (vault_v1 "mooOne" "0xA" "active" 100).
  split; [by left|]. split; [reflexivity|]. split; [by split|].
  exists bsc_on_chain. split; [by left|reflexivity].
Defined.

(** C3 as stated does not hold: the catalog may hold records of a chain that
    [data/chains.js] does not list (['aurora'] is commented out there).  No
    reconciler looks at such a record, and the id of an active one is not
    encountered; here the run over the chains of [data/chains.js] ends with
    an empty set and writes nothing. *)
Lemma active_vault_of_unlisted_chain_not_encountered :
  let vault := IVault.mk "v9" "aurora" "0xE9" "mooNine" "0xF" "active" 100 in
  (IVault.status vault ≠ "eol" ∧ IVault.status vault ≠ "paused")
  ∧ (IVault.id vault ∉ co_encountered (run_chains no_estimate chains_js [vault] []))
  ∧ co_encountered (reconcile no_estimate chains_js [vault] []) = ∅
  ∧ written (main no_estimate chains_js (Fetched true true (Some [vault])) (Required []))
    = mkFiles None None.
Proof.
  repeat split; done.
Qed.

(** C4 (as amended). Let an active vault of the catalog be on a reconciled
    chain that supports on-chain harvesting and has the vault's [earnedToken]
    in its deny-list, let no other record of the catalog have the same
    strategy and id, and no other reconciled chain the same chain id.  Then
    after the run the entry that the lookup by (strategy, id) finds for the
    vault is in the list that is saved and has [noOnChainHrvst] set to
    [true]: the vault is not routed to on-chain harvesting. *)
Theorem denied_vault_is_routed_off_chain (estimateGas : IChain.t → nat → bool)
    (chains : list IChain.t) (vaults : list IVault.t) (strats : list IStratToHrvst.t)
    (chain : IChain.t) (v : IVault.t) :
  chain ∈ chains → v ∈ vaults →
  IChain.id chain = IVault.chain v →
  IVault.status v ≠ "eol" ∧ IVault.status v ≠ "paused" →
  IChain.hasOnChainHarvesting chain = true →
  IVault.earnedToken v ∈ IChain.vaultDenyList chain →
  (∀ w, w ∈ vaults → same_key v w → w = v) →
  (∀ c, c ∈ chains → IChain.id c = IChain.id chain → c = chain) →
  ∃ r st,
    findIndex (matches v) (co_strats (reconcile estimateGas chains vaults strats)) = Some r
    ∧ co_strats (reconcile estimateGas chains vaults strats) !! r = Some (Some st)
    ∧ st ∈ compact (co_strats (reconcile estimateGas chains vaults strats))
    ∧ IStratToHrvst.noOnChainHrvst st = Some true.
Proof.
  intros Hc Hv Hcv Hact%inactive_false Hon Hdeny Hkey Hchain.
  assert (HQ : routed_off_chain v (co_strats (reconcile estimateGas chains vaults strats))).
  { apply (reconcile_first_match _ estimateGas chains vaults strats chain v); try done.
    intros st. by apply routed_denied. }
  destruct HQ as (r & st & Hfind & Hr & Hflag). exists r, st.
  repeat split; try done.
  unfold compact. apply list_elem_of_omap. exists (Some st). split; [|done].
  apply list_elem_of_lookup. by exists r.
Qed.

(** An instance: a new vault with a denied token. *)
Lemma denied_vault_is_routed_off_chain_witness :
  let vault := vault_v1 "mooDenied" "0xA" "active" 100 in
  ∃ r st,
    findIndex (matches vault)
      (co_strats (reconcile no_estimate [bsc_on_chain] [vault] [])) = Some r
    ∧ co_strats (reconcile no_estimate [bsc_on_chain] [vault] []) !! r = Some (Some st)
    ∧ st ∈ compact (co_strats (reconcile no_estimate [bsc_on_chain] [vault] []))
    ∧ IStratToHrvst.noOnChainHrvst st = Some true.
Proof.
  intros vault.
  apply (denied_vault_is_routed_off_chain no_estimate [bsc_on_chain] [vault] []
           bsc_on_chain vault).
  - by left.
  - by left.
  - reflexivity.
  - by split.
  - reflexivity.
  - set_solver.
  - intros w Hw%list_elem_of_singleton _. exact Hw.
  - intros c Hc%list_elem_of_singleton _. exact Hc.
Defined.

(** C4 as stated does not hold for every entry: an entry with a denied
    [earnedToken] and [noOnChainHrvst = false] keeps its flag when the vault
    that matches it reports another [earnedToken] (the decision reads the
    vault's token), and when no vault matches it any more because the vault
    of its id has moved to another strategy (the sweep keeps it, its id being
    encountered). *)
Lemma denied_entry_left_on_chain :
  let chain := bsc_on_chain in
  let entry := entry_v1 "mooDenied" "0xA" 100 (Some false) in
  let renamed := reconcile no_estimate [chain]
                   [vault_v1 "mooOther" "0xA" "active" 100] [entry] in
  let migrated := reconcile no_estimate [chain]
                    [vault_v1 "mooDenied" "0xB" "active" 100] [entry] in
  IChain.hasOnChainHarvesting chain = true
  ∧ IStratToHrvst.earnedToken entry ∈ IChain.vaultDenyList chain
  ∧ IStratToHrvst.noOnChainHrvst entry = Some false
  ∧ compact (co_strats renamed) = [entry]
  ∧ compact (co_strats migrated) = [entry; entry_v1 "mooDenied" "0xB" 100 (Some true)].
Proof.
  repeat split; try done; set_solver.
Qed.

(** C5. A run that only decommissions an entry logs the removal but, the
    sweep not setting [dirty], does not save the list; the next run over the
    same catalog reads the same list and logs the same removal again. *)
Theorem decommission_is_logged_again (estimateGas : IChain.t → nat → bool) :
  let kept := entry_v1 "mooOne" "0xA" 100 None in
  let fetch := Fetched true true (Some [vault_v1 "mooOne" "0xA" "active" 100]) in
  let load := Required [kept; entry_v2] in
  let first := main estimateGas [bsc_on_chain] fetch load in
  let second := main estimateGas [bsc_on_chain] fetch (load_after load first) in
  stratsSync_json (written first) = Some [mkHit "v2" (One removed_decomissioned)]
  ∧ stratsToHrvst_json (written first) = None
  ∧ load_after load first = load
  ∧ stratsSync_json (written second) = Some [mkHit "v2" (One removed_decomissioned)]
  ∧ persisted (load_after load first) second = Some [kept; entry_v2].
Proof.
  repeat split.
Qed.

(** The counterpart: when the first run does save its list, and the ids of
    the catalog and of the chains are unique, the next run over the same
    catalog logs nothing and leaves the saved list as it is, whatever the gas
    estimations give. *)
Theorem run_after_saved_run_is_idle (estimateGas estimateGas' : IChain.t → nat → bool)
    (chains : list IChain.t) (vaults : list IVault.t) (load : RequireResult)
    (saved : list IStratToHrvst.t) :
  (∀ w1 w2, w1 ∈ vaults → w2 ∈ vaults → IVault.id w1 = IVault.id w2 → w1 = w2) →
  (∀ c1 c2, c1 ∈ chains → c2 ∈ chains → IChain.id c1 = IChain.id c2 → c1 = c2) →
  stratsToHrvst_json
    (written (main estimateGas chains (Fetched true true (Some vaults)) load))
  = Some saved →
  stratsSync_json
    (written (main estimateGas' chains (Fetched true true (Some vaults)) (Required saved)))
  = None
  ∧ persisted (Required saved)
      (main estimateGas' chains (Fetched true true (Some vaults)) (Required saved))
    = Some saved.
Proof.
  intros Hid Hchain Hsaved.
  assert (Hfirst : ∃ strats,
    saved = compact (co_strats (reconcile estimateGas chains vaults strats))).
  { cbn [main negb andb] in Hsaved. destruct load as [strats|code].
    - exists strats. cbn [written stratsToHrvst_json] in Hsaved.
      destruct (co_dirty _); congruence.
    - destruct (negb _); [done|]. exists []. cbn [written stratsToHrvst_json] in Hsaved.
      destruct (co_dirty _); congruence. }
  destruct Hfirst as (strats & ->).
  destruct (second_run_idle estimateGas estimateGas' chains vaults strats Hid Hchain)
    as (Hhits & Hlist).
  cbn [main negb andb]. unfold persisted. cbn [written stratsSync_json stratsToHrvst_json].
  rewrite Hhits, Hlist. split; [done|]. by destruct (co_dirty _).
Qed.




(** C7 (as amended). An entry that is in the list a run starts from and is
    still in its slot when the run ends (entries are never moved, so the slot
    identifies the entry) has kept its id and its chain, and its [lastHarvest]
    is not smaller than before; and a single step of [SyncVaults] that changes
    the [lastHarvest] of an entry sets it to the [lastHarvest] of the vault,
    which was strictly larger. *)
Theorem lastHarvest_never_decreases (estimateGas : IChain.t → nat → bool)
    (chains : list IChain.t) (vaults : list IVault.t) (strats : list IStratToHrvst.t) :
  (∀ (i : nat) (e e' : IStratToHrvst.t),
     strats !! i = Some e →
     co_strats (reconcile estimateGas chains vaults strats) !! i = Some (Some e') →
     IStratToHrvst.id e' = IStratToHrvst.id e
     ∧ IStratToHrvst.chain e' = IStratToHrvst.chain e
     ∧ IStratToHrvst.lastHarvest e ≤ IStratToHrvst.lastHarvest e')
  ∧ (∀ (chain : IChain.t) (vault : IVault.t) (s : State) (i : nat)
       (e e' : IStratToHrvst.t),
     stratsToHarvest s !! i = Some (Some e) →
     stratsToHarvest (sync_vault chain vault s) !! i = Some (Some e') →
     IStratToHrvst.lastHarvest e' ≠ IStratToHrvst.lastHarvest e →
     IStratToHrvst.lastHarvest e < IVault.lastHarvest vault
     ∧ IStratToHrvst.lastHarvest e' = IVault.lastHarvest vault).
Proof.
  split; [|apply sync_vault_lastHarvest].
  intros i e e' Hi Hi'.
  assert (Hle : strats_le (Some <$> strats)
                  (co_strats (reconcile estimateGas chains vaults strats))).
  { unfold reconcile. rewrite run_sweep_strats.
    eapply strats_le_trans; [|apply sweep_strats_le].
    exact (foldl_run_chain_strats_le estimateGas chains vaults
             (mkCoordinator (Some <$> strats) ∅ Hits.empty false)). }
  destruct (Hle i (Some e)) as (b & Hb & Hslot).
  { by rewrite list_lookup_fmap, Hi. }
  rewrite Hi' in Hb. injection Hb as <-. simpl in Hslot.
  destruct Hslot as (-> & -> & ?). done.
Qed.

(** An instance: the vault reports a later harvest than the entry has. *)
Lemma lastHarvest_never_decreases_witness :
  let before := entry_v1 "mooOne" "0xA" 100 None in
  let after := entry_v1 "mooOne" "0xA" 150 None in
  let vault := vault_v1 "mooOne" "0xA" "active" 150 in
  co_strats (reconcile no_estimate [bsc_on_chain] [vault] [before]) !! 0%nat
    = Some (Some after)
  ∧ IStratToHrvst.lastHarvest before ≤ IStratToHrvst.lastHarvest after
  ∧ IStratToHrvst.lastHarvest before < IVault.lastHarvest vault.
Proof.
  intros before after vault. split; [reflexivity|]. split.
  - apply (proj1 (lastHarvest_never_decreases no_estimate [bsc_on_chain] [vault] [before])
             0%nat before after); reflexivity.
  - apply (proj2 (lastHarvest_never_decreases no_estimate [bsc_on_chain] [vault] [before])
             bsc_on_chain vault (start_from [before]) 0%nat before after);
      [reflexivity|reflexivity|discriminate].
Defined.

(** C7 as stated does not hold when an entry is identified by its chain and
    id: the lookup of [SyncVaults] compares the strategy and the id and not
    the chain, so the pass of ['bsc'], which comes before that of
    ['polygon'], finds the entry of ['polygon'] for the retired record of
    ['bsc'] with the same id and strategy and deletes it; the pass of
    ['polygon'] then creates the entry anew with the [lastHarvest] of the
    catalog, which is smaller than the one the file had. *)
Lemma lastHarvest_decreases_for_chain_and_id :
  let before := IStratToHrvst.mk "v1" "polygon" "0xE1" "mooOne" "0xA" 100 None in
  let after := IStratToHrvst.mk "v1" "polygon" "0xE1" "mooOne" "0xA" 50 None in
  let vaults := [IVault.mk "v1" "bsc" "0xE1" "mooOne" "0xA" "eol" 100;
                 IVault.mk "v1" "polygon" "0xE1" "mooOne" "0xA" "active" 50] in
  let run := main no_estimate chains_js (Fetched true true (Some vaults))
               (Required [before]) in
  persisted (Required [before]) run = Some [after]
  ∧ co_strats (run_chains no_estimate chains_js vaults [before]) = [None; Some after]
  ∧ IStratToHrvst.id after = IStratToHrvst.id before
  ∧ IStratToHrvst.chain after = IStratToHrvst.chain before
  ∧ IStratToHrvst.lastHarvest after < IStratToHrvst.lastHarvest before
  ∧ stratsSync_json (written run) = Some [mkHit "v1" (Many [removed_inactive; added])].
Proof.
  repeat split.
Qed.

(** C8. When the catalog fetch fails the run is aborted, no chain is
    reconciled and no file is written; when reading the persisted list fails
    with code [MODULE_NOT_FOUND] the run is the run from the empty list; when
    it fails in any other way the run is aborted and no file is written. *)
Theorem failed_fetch_or_load (estimateGas : IChain.t → nat → bool)
    (chains : list IChain.t) :
  (∀ fetch load, fetch_failed fetch →
     main estimateGas chains fetch load = Aborted
     ∧ written (main estimateGas chains fetch load) = mkFiles None None)
  ∧ (∀ vaults,
       main estimateGas chains (Fetched true true (Some vaults))
            (RequireThrew (Some "MODULE_NOT_FOUND"))
       = Completed (reconcile estimateGas chains vaults [])
       ∧ main estimateGas chains (Fetched true true (Some vaults))
              (RequireThrew (Some "MODULE_NOT_FOUND"))
         = main estimateGas chains (Fetched true true (Some vaults)) (Required []))
  ∧ (∀ vaults code, code ≠ Some "MODULE_NOT_FOUND" →
       main estimateGas chains (Fetched true true (Some vaults)) (RequireThrew code)
       = Aborted
       ∧ written (main estimateGas chains (Fetched true true (Some vaults))
                       (RequireThrew code))
         = mkFiles None None).
Proof.
  split; [|split].
  - intros fetch load Hfail.
    assert (Hm : main estimateGas chains fetch load = Aborted).
    { destruct fetch as [|ok body json]; [done|]. simpl in *.
      destruct Hfail as [->| [->| ->]]; simpl; [done|by rewrite andb_false_r|].
      by destruct (negb (ok && body)). }
    by rewrite Hm.
  - intros vaults. done.
  - intros vaults code Hcode. simpl. by rewrite bool_decide_false.
Qed.

(** Instances: a response that is not [ok], and a load failure other than
    [MODULE_NOT_FOUND]. *)
Lemma failed_fetch_or_load_witness :
  fetch_failed (Fetched false true None)
  ∧ main no_estimate [bsc_on_chain] (Fetched false true None) (Required [entry_v2])
    = Aborted
  ∧ main no_estimate [bsc_on_chain] (Fetched true true (Some []))
         (RequireThrew (Some "EACCES"))
    = Aborted.
Proof.
  split; [by left|]. split.
  - apply (proj1 (failed_fetch_or_load no_estimate [bsc_on_chain])). by left.
  - apply (proj2 (proj2 (failed_fetch_or_load no_estimate [bsc_on_chain]))).
    discriminate.
Defined.

(** C9. [SyncVaults] returns [true] exactly when, for some vault of the
    catalog, the strategy list after that vault has been processed differs
    from the list before it; and when it returns [false] the strategy list
    is the one the pass started from. *)
Theorem SyncVaults_dirty_iff_mutated (chain : IChain.t) (vaults : list IVault.t)
    (s : State) :
  (dirty (SyncVaults chain vaults s) = true ↔
   ∃ pre vault post, vaults = pre ++ vault :: post
     ∧ stratsToHarvest (SyncVaults chain (pre ++ [vault]) s)
       ≠ stratsToHarvest (SyncVaults chain pre s))
  ∧ (dirty (SyncVaults chain vaults s) = false →
     stratsToHarvest (SyncVaults chain vaults s) = stratsToHarvest s).
Proof.
  unfold SyncVaults. split.
  - rewrite forEach_vault_dirty. simpl. split; [|by right].
    by intros [?|?].
  - intros Hd. by rewrite forEach_vault_clean.
Qed.

(** Instances: a pass that changes nothing and a pass that adds an entry. *)
Lemma SyncVaults_dirty_iff_mutated_witness :
  let entry := entry_v1 "mooOne" "0xA" 100 None in
  let vault := vault_v1 "mooOne" "0xA" "active" 100 in
  dirty (SyncVaults bsc_on_chain [vault] (start_from [entry])) = false
  ∧ stratsToHarvest (SyncVaults bsc_on_chain [vault] (start_from [entry]))
    = stratsToHarvest (start_from [entry])
  ∧ dirty (SyncVaults bsc_on_chain [vault] (start_from [])) = true.
Proof.
  intros entry vault. split; [reflexivity|]. split.
  - apply (proj2 (SyncVaults_dirty_iff_mutated bsc_on_chain [vault] (start_from [entry]))).
    reflexivity.
  - apply (proj1 (SyncVaults_dirty_iff_mutated bsc_on_chain [vault] (start_from []))).
    exists [], vault, []. split; [reflexivity|discriminate].
Defined.

(** C10. [Hits.add] with the empty id leaves the hit log as it is, for every
    change kind; and no record of the change log a run writes to
    [data/stratsSync.json] has the empty id. *)
Theorem add_empty_id_is_noop :
  (∀ (k : HitType) (h : Hits.t), Hits.add "" k h = h)
  ∧ (∀ (estimateGas : IChain.t → nat → bool) (chains : list IChain.t)
       (fetch : FetchResult) (load : RequireResult) (log : list Hit) (x : Hit),
       stratsSync_json (written (main estimateGas chains fetch load)) = Some log →
       x ∈ log → hit_id x ≠ "").
Proof.
  split; [apply HitsFacts.add_empty_id|].
  intros est chains fetch load log x Hlog Hx.
  assert (Hrec : ∀ vaults strats,
    no_empty_id (co_hits (reconcile est chains vaults strats))).
  { intros. apply reconcile_hits; [apply HitsFacts.add_no_empty_id|constructor]. }
  assert (Hc : ∀ c, no_empty_id (co_hits c) →
    stratsSync_json (written (Completed c)) = Some log → hit_id x ≠ "").
  { intros c Hne. simpl. case_bool_decide; [|done]. intros [= <-].
    apply HitsFacts.values_elem_of in Hx.
    unfold no_empty_id in Hne. rewrite Forall_forall in Hne. by apply Hne. }
  unfold main in Hlog.
  destruct fetch as [|ok body [vaults|]]; try done.
  - destruct (negb (ok && body)); [done|].
    destruct load as [strats|code]; [by eapply Hc|].
    destruct (negb _); [done|]. by eapply Hc.
  - by destruct (negb (ok && body)).
Qed.

(** An instance: the record a run writes for an added vault. *)
Lemma add_empty_id_is_noop_witness :
  hit_id (mkHit "v1" (One added)) ≠ "".
Proof.
  apply (proj2 add_empty_id_is_noop no_estimate [bsc_on_chain]
           (Fetched true true (Some [vault_v1 "mooOne" "0xA" "active" 100]))
           (Required []) [mkHit "v1" (One added)]).
  - reflexivity.
  - by left.
Defined.

(** * Further properties *)

(** ** The hit log: ids and kinds *)

Lemma update_ids (id : string) (f : HitTypes → HitTypes) (h : Hits.t) :
  hit_id <$> Hits.update id f h = hit_id <$> h.
Proof.
  induction h as [|x h IH]; [done|]. cbn [Hits.update].
  case_bool_decide; [done|]. rewrite !fmap_cons. by f_equal.
Qed.

Lemma get_None_ids (id : string) (h : Hits.t) :
  Hits.get id h = None ↔ id ∉ hit_id <$> h.
Proof.
  induction h as [|x h IH]; cbn [Hits.get].
  - split; [|done]. intros _ Hin. by apply elem_of_nil in Hin.
  - rewrite fmap_cons, not_elem_of_cons. case_bool_decide as Hx.
    + split; [done|]. intros [Hne _]. by destruct Hne.
    + rewrite IH. split; [|by intros [_ ?]]. intros ?. split; [congruence|done].
Qed.

Lemma add_ids (id : string) (k : HitType) (h : Hits.t) :
  hit_id <$> Hits.add id k h
  = if bool_decide (id = "" ∨ id ∈ Hits.inherited_names ∨ id ∈ hit_id <$> h)
    then hit_id <$> h
    else (hit_id <$> h) ++ [id].
Proof.
  unfold Hits.add, Hits.inherited. case_bool_decide as Hid.
  - rewrite bool_decide_true; [done|]. by left.
  - case_bool_decide as Hown.
    { rewrite bool_decide_true; [done|]. right. by left. }
    destruct (Hits.get id h) as [hit|] eqn:Hget.
    + assert (Hin : id ∈ hit_id <$> h).
      { destruct (decide (id ∈ hit_id <$> h)) as [|Hnot]; [done|].
        apply get_None_ids in Hnot. congruence. }
      rewrite bool_decide_true by (right; by right).
      destruct (hit_type hit); apply update_ids.
    + apply get_None_ids in Hget.
      rewrite bool_decide_false by (intros [?|[?|?]]; done).
      by rewrite fmap_app.
Qed.

Lemma add_NoDup (id : string) (k : HitType) (h : Hits.t) :
  NoDup (hit_id <$> h) → NoDup (hit_id <$> Hits.add id k h).
Proof.
  intros Hnd. rewrite add_ids. case_bool_decide as Hin; [done|].
  apply NoDup_app. split; [done|]. split; [|apply NoDup_singleton].
  intros x Hx ->%list_elem_of_singleton. apply Hin. right. by right.
Qed.

(** *** The order of the keys *)

(** Two keys with the same index are the same key. *)
Lemma digit_Some (c : Ascii.ascii) (d : N) :
  Hits.digit c = Some d → (d < 10)%N ∧ Ascii.N_of_ascii c = (d + 48)%N.
Proof.
  unfold Hits.digit. case_bool_decide as Hc; [|done]. intros [= <-]. lia.
Qed.

Lemma digit_inj (c c' : Ascii.ascii) (d : N) :
  Hits.digit c = Some d → Hits.digit c' = Some d → c = c'.
Proof.
  intros [_ Hc]%digit_Some [_ Hc']%digit_Some.
  rewrite <- (Ascii.ascii_N_embedding c), <- (Ascii.ascii_N_embedding c'). congruence.
Qed.

Lemma digits_bounds (s : string) (acc v : N) :
  Hits.digits acc s = Some v →
  (acc * 10 ^ N.of_nat (String.length s) ≤ v
   ∧ v < (acc + 1) * 10 ^ N.of_nat (String.length s))%N.
Proof.
  revert acc. induction s as [|c s IH]; intros acc; cbn [Hits.digits String.length].
  - intros [= <-]. simpl. lia.
  - destruct (Hits.digit c) as [d|] eqn:Hd; [|done].
    apply digit_Some in Hd as [Hd _]. intros Hv%IH.
    rewrite Nat2N.inj_succ, N.pow_succ_r'. nia.
Qed.

Lemma digits_inj (s s' : string) (acc acc' v : N) :
  String.length s = String.length s' →
  Hits.digits acc s = Some v → Hits.digits acc' s' = Some v → acc = acc' ∧ s = s'.
Proof.
  revert s' acc acc'. induction s as [|c s IH]; intros [|c' s'] acc acc' Hlen;
    cbn [Hits.digits String.length] in *; try done.
  - by intros [= <-] [= <-].
  - destruct (Hits.digit c) as [d|] eqn:Hd; [|done].
    destruct (Hits.digit c') as [d'|] eqn:Hd'; [|done].
    intros Hv Hv'. destruct (IH s' _ _ ltac:(lia) Hv Hv') as [Hacc ->].
    pose proof (digit_Some _ _ Hd) as [? _]. pose proof (digit_Some _ _ Hd') as [? _].
    assert (acc = acc') as -> by lia. assert (d = d') as -> by lia.
    split; [done|]. f_equal. by eapply digit_inj.
Qed.

Lemma array_index_bounds (s : string) (n : N) :
  Hits.array_index s = Some n →
  Hits.digits 0 s = Some n
  ∧ (10 ^ N.of_nat (String.length s) ≤ 10 * n ∨ s = "0")%N.
Proof.
  destruct s as [|c s]; cbn [Hits.array_index]; [intros ?; discriminate|].
  destruct (bool_decide (Hits.digit c = Some 0%N) && negb (bool_decide (s = EmptyString)))
    eqn:Hlead; [done|].
  destruct (Hits.digits 0 (String c s)) as [v|] eqn:Hv; [|done].
  destruct (bool_decide (v < 2 ^ 32 - 1)%N); [|done]. intros [= <-]. split; [done|].
  cbn [Hits.digits] in Hv. destruct (Hits.digit c) as [d|] eqn:Hd; [|done].
  apply andb_false_iff in Hlead as [Hlead|Hlead].
  - apply bool_decide_eq_false in Hlead. left.
    apply digits_bounds in Hv as [Hv _]. cbn [String.length].
    rewrite Nat2N.inj_succ, N.pow_succ_r'.
    assert (d ≠ 0%N) by congruence. nia.
  - apply negb_false_iff, bool_decide_eq_true in Hlead as ->.
    cbn [Hits.digits] in Hv. injection Hv as <-.
    apply digit_Some in Hd as [Hd Hc]. destruct (decide (d = 0%N)) as [->|Hne].
    + right. f_equal. rewrite <- (Ascii.ascii_N_embedding c), Hc. reflexivity.
    + left. simpl. lia.
Qed.

Lemma array_index_inj (s s' : string) (n : N) :
  Hits.array_index s = Some n → Hits.array_index s' = Some n → s = s'.
Proof.
  intros [Hd Hlo]%array_index_bounds [Hd' Hlo']%array_index_bounds.
  destruct (decide (String.length s = String.length s')) as [Hlen|Hlen].
  { by destruct (digits_inj s s' 0 0 n Hlen Hd Hd'). }
  exfalso.
  pose proof (digits_bounds _ _ _ Hd) as [_ Hhi].
  pose proof (digits_bounds _ _ _ Hd') as [_ Hhi'].
  assert (Hpow : ∀ a b : nat, (a < b)%nat → (10 * 10 ^ N.of_nat a ≤ 10 ^ N.of_nat b)%N).
  { intros a b Hab. rewrite <- N.pow_succ_r', <- Nat2N.inj_succ.
    apply N.pow_le_mono_r; lia. }
  destruct Hlo as [Hlo| ->], Hlo' as [Hlo'| ->]; cbn [String.length] in *.
  - destruct (decide (String.length s < String.length s')%nat) as [Hlt|Hge].
    + pose proof (Hpow _ _ Hlt). lia.
    + pose proof (Hpow (String.length s') (String.length s) ltac:(lia)). lia.
  - injection Hd' as <-. simpl in *. 
    assert (String.length s = 0%nat ∨ (1 < String.length s)%nat) as [H0|H1] by lia.
    + destruct s; done.
    + pose proof (Hpow 1%nat _ H1). simpl in *. lia.
  - injection Hd as <-. simpl in *.
    assert (String.length s' = 0%nat ∨ (1 < String.length s')%nat) as [H0|H1] by lia.
    + destruct s'; done.
    + pose proof (Hpow 1%nat _ H1). simpl in *. lia.
  - done.
Qed.

Lemma insert_index_sorted (k : string) (n : N) (l : list string) :
  Hits.array_index k = Some n →
  StronglySorted (λ a b, (default 0 (Hits.array_index a)
                          ≤ default 0 (Hits.array_index b))%N) l →
  StronglySorted (λ a b, (default 0 (Hits.array_index a)
                          ≤ default 0 (Hits.array_index b))%N)
                 (Hits.insert_index k n l).
Proof.
  intros Hk. induction 1 as [|k' l Hs IH Hall]; simpl.
  - repeat constructor.
  - case_bool_decide as Hlt.
    + constructor; [by constructor|]. constructor.
      * rewrite Hk. simpl. lia.
      * eapply Forall_impl; [exact Hall|]. simpl. intros x Hx. rewrite Hk. simpl. lia.
    + constructor; [done|]. rewrite HitsFacts.insert_index_Permutation.
      constructor; [|done]. rewrite Hk. simpl. lia.
Qed.

Lemma index_keys_sorted (ids : list string) :
  StronglySorted (λ a b, (default 0 (Hits.array_index a)
                          ≤ default 0 (Hits.array_index b))%N)
                 (Hits.index_keys ids).
Proof.
  induction ids as [|k ids IH] using rev_ind; [constructor|].
  rewrite HitsFacts.index_keys_snoc.
  destruct (Hits.array_index k) as [n|] eqn:Hk; [|done].
  by apply insert_index_sorted.
Qed.

Lemma index_keys_index (ids : list string) (k : string) :
  k ∈ Hits.index_keys ids → is_Some (Hits.array_index k).
Proof.
  rewrite HitsFacts.index_keys_Permutation. intros [Hk _]%list_elem_of_filter.
  by destruct (Hits.array_index k).
Qed.

(** The place at which a key is put among sorted keys. *)
Lemma insert_index_split (k : string) (n : N) (l : list string) :
  StronglySorted (λ a b, (default 0 (Hits.array_index a)
                          ≤ default 0 (Hits.array_index b))%N) l →
  ∃ l1 l2, l = l1 ++ l2 ∧ Hits.insert_index k n l = l1 ++ k :: l2
    ∧ Forall (λ k', (default 0 (Hits.array_index k') ≤ n)%N) l1
    ∧ Forall (λ k', (n < default 0 (Hits.array_index k'))%N) l2.
Proof.
  induction 1 as [|k' l Hs IH Hall]; simpl.
  - exists [], []. by repeat split.
  - case_bool_decide as Hlt.
    + exists [], (k' :: l). repeat split; [constructor|].
      constructor; [done|]. eapply Forall_impl; [exact Hall|]. simpl. intros; lia.
    + destruct IH as (l1 & l2 & -> & -> & H1 & H2).
      exists (k' :: l1), l2. repeat split; [|done].
      constructor; [lia|done].
Qed.

Lemma keys_add_same (id : string) (k : HitType) (h : Hits.t) :
  id = "" ∨ id ∈ Hits.inherited_names ∨ id ∈ hit_id <$> h →
  Hits.keys (Hits.add id k h) = Hits.keys h.
Proof.
  intros Hid. unfold Hits.keys. rewrite add_ids. by rewrite bool_decide_true.
Qed.

Lemma keys_add_new (id : string) (k : HitType) (h : Hits.t) :
  id ≠ "" → id ∉ Hits.inherited_names → id ∉ hit_id <$> h →
  Hits.keys (Hits.add id k h)
  = match Hits.array_index id with
    | Some n => Hits.insert_index id n (Hits.index_keys (hit_id <$> h))
                ++ filter (λ k, Hits.array_index k = None) (hit_id <$> h)
    | None => Hits.keys h ++ [id]
    end.
Proof.
  intros Hid Hown Hnew. unfold Hits.keys. rewrite add_ids.
  rewrite bool_decide_false by (intros [?|[?|?]]; done).
  rewrite HitsFacts.index_keys_snoc, filter_app.
  destruct (Hits.array_index id) as [n|] eqn:Hk.
  - rewrite filter_cons_False by (intros ?; congruence).
    by rewrite filter_nil, app_nil_r.
  - rewrite filter_cons_True by done. by rewrite filter_nil, app_assoc.
Qed.

(** X1. The order in which the log lists its records, as [Hits.add] builds
    it.  A call of [add] with the empty id, with the name of an inherited
    property or with an id that has a record leaves the sequence of ids as it
    is.  A call with a new id, other than those, puts the id in: at the end
    when the id is not an array index; when it is one, behind the ids with a
    smaller index and before the ids with a larger index and the ids that are
    no index.  And [add] never makes two records with the same id. *)
Theorem Hits_values_order_after_add (id : string) (k : HitType) (h : Hits.t) :
  (id = "" ∨ id ∈ Hits.inherited_names ∨ id ∈ hit_id <$> Hits.values h →
   hit_id <$> Hits.values (Hits.add id k h) = hit_id <$> Hits.values h)
  ∧ (Hits.ordinary id → id ∉ hit_id <$> Hits.values h →
     ∃ l1 l2,
       hit_id <$> Hits.values h = l1 ++ l2
       ∧ hit_id <$> Hits.values (Hits.add id k h) = l1 ++ id :: l2
       ∧ match Hits.array_index id with
         | None => l2 = []
         | Some n =>
             (∀ k', k' ∈ l1 → ∃ m, Hits.array_index k' = Some m ∧ (m < n)%N)
             ∧ (∀ k' m, k' ∈ l2 → Hits.array_index k' = Some m → (n < m)%N)
         end)
  ∧ (NoDup (hit_id <$> Hits.values h) →
     NoDup (hit_id <$> Hits.values (Hits.add id k h))).
Proof.
  rewrite !HitsFacts.values_ids. split; [|split].
  - intros Hid. apply keys_add_same. by rewrite <- HitsFacts.keys_Permutation.
  - intros (Hid & Hown & _) Hnew. rewrite HitsFacts.keys_Permutation in Hnew.
    rewrite keys_add_new by done.
    destruct (Hits.array_index id) as [n|] eqn:Hk.
    + destruct (insert_index_split id n (Hits.index_keys (hit_id <$> h)))
        as (l1 & l2 & Hl & -> & H1 & H2); [apply index_keys_sorted|].
      exists l1, (l2 ++ filter (λ k, Hits.array_index k = None) (hit_id <$> h)).
      unfold Hits.keys. rewrite Hl. rewrite <- !app_assoc. repeat split.
      * intros k' Hk'. rewrite Forall_forall in H1. specialize (H1 k' Hk').
        destruct (index_keys_index (hit_id <$> h) k') as [m Hm].
        { rewrite Hl. apply elem_of_app. by left. }
        exists m. rewrite Hm in H1. split; [done|]. simpl in H1.
        destruct (decide (m = n)) as [->|Hne]; [|lia].
        destruct Hnew. rewrite <- (array_index_inj _ _ _ Hm Hk).
        rewrite <- HitsFacts.keys_Permutation. unfold Hits.keys. rewrite Hl.
        apply elem_of_app. left. apply elem_of_app. by left.
      * intros k' m [Hk'|Hk']%elem_of_app Hm.
        -- rewrite Forall_forall in H2. specialize (H2 k' Hk'). by rewrite Hm in H2.
        -- apply list_elem_of_filter in Hk' as [Hnone _]. congruence.
    + exists (Hits.keys h), []. by rewrite app_nil_r.
  - rewrite !HitsFacts.keys_Permutation. apply add_NoDup.
Qed.

(** An instance: the id ["7"] is listed before the id ["v1"] added first. *)
Lemma Hits_values_order_after_add_witness :
  hit_id <$> Hits.values (Hits.add "7" added [mkHit "v1" (One added)]) = ["7"; "v1"]
  ∧ hit_id <$> Hits.values (Hits.add "" added [mkHit "v1" (One added)]) = ["v1"]
  ∧ NoDup (hit_id <$> Hits.values (Hits.add "v2" added [mkHit "v1" (One added)])).
Proof.
  pose proof (Hits_values_order_after_add "7" added [mkHit "v1" (One added)])
    as (_ & Hnew & _).
  pose proof (Hits_values_order_after_add "" added [mkHit "v1" (One added)])
    as (Hsame & _ & _).
  pose proof (Hits_values_order_after_add "v2" added [mkHit "v1" (One added)])
    as (_ & _ & Hnd).
  split; [|split].
  - destruct Hnew as (l1 & l2 & H1 & H2 & _).
    + by apply (bool_decide_unpack _).
    + by apply (bool_decide_unpack _).
    + reflexivity.
  - apply Hsame. by left.
  - apply Hnd. apply NoDup_singleton.
Defined.

(** X2. [Hits.add] merges: with an id under which it stores a record (not
    the empty string, not the name of an inherited property) it appends the
    kind to the kinds already recorded for that id, in the order of the
    calls; and whatever the id, it leaves the kinds recorded for every other
    id as they are. *)
Theorem Hits_add_appends_kind (id id' : string) (k : HitType) (h : Hits.t) :
  (Hits.ordinary id → Hits.kinds id (Hits.add id k h) = Hits.kinds id h ++ [k])
  ∧ (id' ≠ id → Hits.kinds id' (Hits.add id k h) = Hits.kinds id' h).
Proof.
  split.
  - intros [Hid Hown]%HitsFacts.ordinary_stored. by apply HitsFacts.kinds_add.
  - apply HitsFacts.kinds_add_ne.
Qed.

Lemma Hits_add_appends_kind_witness :
  Hits.kinds "v1" (Hits.add "v1" on_chain_harvest_switch [mkHit "v1" (One added)])
  = [added; on_chain_harvest_switch].
Proof.
  apply (proj1 (Hits_add_appends_kind "v1" "v1" on_chain_harvest_switch
                  [mkHit "v1" (One added)])).
  by apply (bool_decide_unpack _).
Defined.

(** ** A pass of [SyncVaults] *)

Lemma forEach_vault_cons (chain : IChain.t) (v : IVault.t) (vaults : list IVault.t)
    (s : State) :
  forEach_vault chain (v :: vaults) s = forEach_vault chain vaults (sync_vault chain v s).
Proof. done. Qed.

Lemma forEach_vault_filter (chain : IChain.t) (vaults : list IVault.t) (s : State) :
  forEach_vault chain vaults s
  = forEach_vault chain (filter (λ v, IChain.id chain = IVault.chain v) vaults) s.
Proof.
  revert s. induction vaults as [|v vaults IH]; intros s; [done|].
  rewrite forEach_vault_cons. destruct (decide (IChain.id chain = IVault.chain v)) as [Hc|Hc].
  - rewrite filter_cons_True by done. rewrite forEach_vault_cons. apply IH.
  - rewrite filter_cons_False by done. rewrite sync_vault_other by done. apply IH.
Qed.

(** X3. A pass looks only at the vaults of its own chain: [SyncVaults] on the
    whole catalog is [SyncVaults] on the records whose chain is the id of the
    manager's chain. *)
Theorem SyncVaults_reads_own_chain_only (chain : IChain.t) (vaults : list IVault.t)
    (s : State) :
  SyncVaults chain vaults s
  = SyncVaults chain (filter (λ v, IChain.id chain = IVault.chain v) vaults) s.
Proof. unfold SyncVaults. apply forEach_vault_filter. Qed.

Lemma present_snoc (l : list (option IStratToHrvst.t)) (x : IStratToHrvst.t) :
  present (l ++ [Some x]) = S (present l).
Proof.
  unfold present, compact. rewrite omap_app, length_app. simpl. lia.
Qed.

Lemma present_insert_Some (l : list (option IStratToHrvst.t)) (r : nat)
    (st x : IStratToHrvst.t) :
  l !! r = Some (Some st) → present (<[r := Some x]> l) = present l.
Proof.
  unfold present, compact. revert r.
  induction l as [|o l IH]; intros [|r] Hr; try done.
  - injection Hr as ->. done.
  - simpl in Hr. specialize (IH r Hr). cbn [insert list_insert].
    destruct o; simpl; [f_equal|]; exact IH.
Qed.

Lemma present_insert_None (l : list (option IStratToHrvst.t)) (r : nat)
    (st : IStratToHrvst.t) :
  l !! r = Some (Some st) → S (present (<[r := None]> l)) = present l.
Proof.
  unfold present, compact. revert r.
  induction l as [|o l IH]; intros [|r] Hr; try done.
  - injection Hr as ->. done.
  - simpl in Hr. specialize (IH r Hr). cbn [insert list_insert].
    destruct o; simpl; [f_equal|]; exact IH.
Qed.

Lemma sync_vault_counts (chain : IChain.t) (vault : IVault.t) (s : State) :
  (length (stratsToHarvest (sync_vault chain vault s)) + added_count s
   = length (stratsToHarvest s) + added_count (sync_vault chain vault s))%nat
  ∧ (present (stratsToHarvest (sync_vault chain vault s))
     + removed_count (sync_vault chain vault s) + added_count s
     = present (stratsToHarvest s) + added_count (sync_vault chain vault s)
       + removed_count s)%nat
  ∧ (added_count s ≤ added_count (sync_vault chain vault s))%nat
  ∧ (removed_count s ≤ removed_count (sync_vault chain vault s))%nat.
Proof.
  destruct (decide (IChain.id chain = IVault.chain vault)) as [Hc|Hc];
    [|rewrite sync_vault_other by done; lia].
  pose proof (sync_vault_spec chain vault s Hc) as Hs.
  destruct (findIndex _ _) as [r|]; [destruct Hs as (st & Hr & _ & _ & Hs)|];
    rewrite Hs; destruct (inactive _);
    cbn [stratsToHarvest added_count removed_count]; try lia.
  - rewrite length_insert. pose proof (present_insert_None _ _ _ Hr). lia.
  - rewrite length_insert, (present_insert_Some _ _ st) by done. lia.
  - rewrite length_app, present_snoc. simpl. lia.
Qed.

Lemma forEach_vault_counts (chain : IChain.t) (vaults : list IVault.t) (s : State) :
  (length (stratsToHarvest (forEach_vault chain vaults s)) + added_count s
   = length (stratsToHarvest s) + added_count (forEach_vault chain vaults s))%nat
  ∧ (present (stratsToHarvest (forEach_vault chain vaults s))
     + removed_count (forEach_vault chain vaults s) + added_count s
     = present (stratsToHarvest s) + added_count (forEach_vault chain vaults s)
       + removed_count s)%nat
  ∧ (added_count s ≤ added_count (forEach_vault chain vaults s))%nat
  ∧ (removed_count s ≤ removed_count (forEach_vault chain vaults s))%nat.
Proof.
  revert s. induction vaults as [|v vaults IH]; intros s; [simpl; lia|].
  rewrite forEach_vault_cons.
  pose proof (sync_vault_counts chain v s). pose proof (IH (sync_vault chain v s)). lia.
Qed.

(** X4. The counts that [stratsChanged] reports for the pass of a new manager
    account for the list: the array has grown by the number added, and the
    number of entries present has grown by the number added less the number
    removed. *)
Theorem stratsChanged_accounts_for_the_list (chain : IChain.t) (vaults : list IVault.t)
    (l : list (option IStratToHrvst.t)) (enc : gset string) (h : Hits.t) :
  let s := SyncVaults chain vaults (manager_start l enc h) in
  (length (stratsToHarvest s) = length l + (stratsChanged s).1)%nat
  ∧ (present (stratsToHarvest s) + (stratsChanged s).2
     = present l + (stratsChanged s).1)%nat.
Proof.
  intros s. unfold stratsChanged. cbn [fst snd].
  pose proof (forEach_vault_counts chain vaults (mkState l enc h 0 0 [] false)) as H.
  cbn [stratsToHarvest added_count removed_count] in H.
  subst s. unfold SyncVaults, manager_start.
  cbn [stratsToHarvest encountered hits added_count removed_count notOnChainHarvest].
  lia.
Qed.

Lemma sync_vault_worklist (chain : IChain.t) (vault : IVault.t) (s : State) :
  ∃ refs,
    notOnChainHarvest (sync_vault chain vault s) = notOnChainHarvest s ++ refs
    ∧ length refs = (if bool_decide (off_chain_vault chain vault) then 1 else 0)%nat
    ∧ Forall (λ r, (r < length (stratsToHarvest (sync_vault chain vault s)))%nat) refs.
Proof.
  destruct (decide (IChain.id chain = IVault.chain vault)) as [Hc|Hc].
  - pose proof (sync_vault_spec chain vault s Hc) as Hs.
    destruct (findIndex _ _) as [r|]; [destruct Hs as (st & Hr & _ & _ & Hs)|];
      rewrite Hs; destruct (inactive (IVault.status vault)) eqn:Hin;
      cbn [stratsToHarvest notOnChainHarvest].
    + exists []. rewrite app_nil_r, bool_decide_false; [done|].
      intros (_ & ? & _). congruence.
    + exists (worklist chain vault r). split; [done|]. unfold worklist.
      destruct (onChainHarvest chain vault) eqn:Hon.
      * rewrite bool_decide_false; [done|]. intros (_ & _ & ?). congruence.
      * rewrite bool_decide_true by done. split; [done|].
        apply Forall_singleton. rewrite length_insert. by eapply lookup_lt_Some.
    + exists []. rewrite app_nil_r, bool_decide_false; [done|].
      intros (_ & ? & _). congruence.
    + exists (worklist chain vault (length (stratsToHarvest s))). split; [done|].
      unfold worklist. destruct (onChainHarvest chain vault) eqn:Hon.
      * rewrite bool_decide_false; [done|]. intros (_ & _ & ?). congruence.
      * rewrite bool_decide_true by done. split; [done|].
        apply Forall_singleton. rewrite length_app. simpl. lia.
  - rewrite sync_vault_other by done. exists [].
    rewrite app_nil_r, bool_decide_false; [done|]. by intros (? & _).
Qed.

Lemma forEach_vault_length (chain : IChain.t) (vaults : list IVault.t) (s : State) :
  (length (stratsToHarvest s) ≤ length (stratsToHarvest (forEach_vault chain vaults s)))%nat.
Proof. pose proof (forEach_vault_counts chain vaults s). lia. Qed.

Lemma forEach_vault_worklist (chain : IChain.t) (vaults : list IVault.t) (s : State) :
  length (notOnChainHarvest (forEach_vault chain vaults s))
  = (length (notOnChainHarvest s) + length (filter (off_chain_vault chain) vaults))%nat
  ∧ (Forall (λ r, (r < length (stratsToHarvest s))%nat) (notOnChainHarvest s) →
     Forall (λ r, (r < length (stratsToHarvest (forEach_vault chain vaults s)))%nat)
       (notOnChainHarvest (forEach_vault chain vaults s))).
Proof.
  revert s. induction vaults as [|v vaults IH]; intros s.
  - simpl. split; [lia|done].
  - rewrite forEach_vault_cons.
    destruct (sync_vault_worklist chain v s) as (refs & Hw & Hlen & Hvalid).
    destruct (IH (sync_vault chain v s)) as (IHlen & IHvalid). split.
    + rewrite IHlen, Hw, length_app, Hlen.
      destruct (decide (off_chain_vault chain v)) as [Hoff|Hoff].
      * rewrite bool_decide_true, filter_cons_True by done. simpl. lia.
      * rewrite bool_decide_false, filter_cons_False by done. lia.
    + intros Hs. apply IHvalid. rewrite Hw. apply Forall_app. split; [|done].
      eapply Forall_impl; [exact Hs|]. intros r Hr. cbn beta in *.
      pose proof (forEach_vault_length chain [v] s) as Hle.
      rewrite forEach_vault_cons in Hle. simpl in Hle. lia.
Qed.

(** The reference a step puts on the worklist is the slot of the entry that
    the step has found or created for the vault. *)
Lemma sync_vault_reference (chain : IChain.t) (vault : IVault.t) (s : State) :
  let r := default (length (stratsToHarvest s))
                   (findIndex (matches vault) (stratsToHarvest s)) in
  notOnChainHarvest (sync_vault chain vault s)
  = notOnChainHarvest s ++ (if bool_decide (off_chain_vault chain vault) then [r] else [])
  ∧ (IChain.id chain = IVault.chain vault → inactive (IVault.status vault) = false →
     findIndex (matches vault) (stratsToHarvest (sync_vault chain vault s)) = Some r).
Proof.
  intros r. subst r.
  destruct (decide (IChain.id chain = IVault.chain vault)) as [Hc|Hc].
  - pose proof (sync_vault_spec chain vault s Hc) as Hs.
    destruct (findIndex _ _) as [r|] eqn:Hfind;
      [destruct Hs as (st & Hr & Hstrat & Hid & Hs)|];
      rewrite Hs; destruct (inactive (IVault.status vault)) eqn:Hin;
      cbn [stratsToHarvest notOnChainHarvest default from_option].
    + split; [|done]. rewrite bool_decide_false; [by rewrite app_nil_r|].
      intros (_ & ? & _). congruence.
    + split.
      * unfold worklist. destruct (onChainHarvest chain vault) eqn:Hon.
        -- rewrite bool_decide_false; [done|]. intros (_ & _ & ?). congruence.
        -- by rewrite bool_decide_true.
      * intros _ _. apply findIndex_insert_same; [done|].
        rewrite matches_updated. unfold matches.
        by rewrite Hstrat, Hid, !bool_decide_true.
    + split; [|done]. rewrite bool_decide_false; [by rewrite app_nil_r|].
      intros (_ & ? & _). congruence.
    + split.
      * unfold worklist. destruct (onChainHarvest chain vault) eqn:Hon.
        -- rewrite bool_decide_false; [done|]. intros (_ & _ & ?). congruence.
        -- by rewrite bool_decide_true.
      * intros _ _. apply findIndex_snoc; [done|].
        by rewrite matches_entry_of, !bool_decide_true.
  - rewrite sync_vault_other by done. split; [|done].
    rewrite bool_decide_false; [by rewrite app_nil_r|]. by intros (? & _).
Qed.

Lemma forEach_vault_app (chain : IChain.t) (l1 l2 : list IVault.t) (s : State) :
  forEach_vault chain (l1 ++ l2) s = forEach_vault chain l2 (forEach_vault chain l1 s).
Proof. unfold forEach_vault. by rewrite foldl_app. Qed.

Lemma forEach_vault_worklist_prefix (chain : IChain.t) (vaults : list IVault.t)
    (s : State) :
  notOnChainHarvest s `prefix_of` notOnChainHarvest (forEach_vault chain vaults s).
Proof.
  revert s. induction vaults as [|v vaults IH]; intros s; [done|].
  rewrite forEach_vault_cons. etrans; [|apply IH].
  destruct (sync_vault_worklist chain v s) as (refs & -> & _). by apply prefix_app_r.
Qed.

(** X5. The off-chain worklist of a new manager's pass.  It has one reference
    for each record of the catalog that is on the manager's chain, active and
    not eligible for on-chain harvesting, and every reference is a slot of
    the strategy list.  The references come in the order of the catalog: the
    step for a record puts one reference behind those of the records before
    it when the record is of that kind, and none otherwise, and what the
    worklist holds after the step is the beginning of what it holds when the
    pass ends; and the reference is the slot of the entry of the record, that
    is the slot in which the lookup had found the entry or, when it had found
    none, the slot of the entry just created, and after the step the lookup
    for the record finds that slot. *)
Theorem worklist_of_a_pass (chain : IChain.t) (vaults : list IVault.t)
    (l : list (option IStratToHrvst.t)) (enc : gset string) (h : Hits.t) :
  let s := SyncVaults chain vaults (manager_start l enc h) in
  length (notOnChainHarvest s) = length (filter (off_chain_vault chain) vaults)
  ∧ Forall (λ r, (r < length (stratsToHarvest s))%nat) (notOnChainHarvest s)
  ∧ ∀ (pre : list IVault.t) (v : IVault.t) (post : list IVault.t),
      vaults = pre ++ v :: post →
      let s0 := SyncVaults chain pre (manager_start l enc h) in
      let s1 := SyncVaults chain (pre ++ [v]) (manager_start l enc h) in
      let r := default (length (stratsToHarvest s0))
                       (findIndex (matches v) (stratsToHarvest s0)) in
      notOnChainHarvest s1
      = notOnChainHarvest s0 ++ (if bool_decide (off_chain_vault chain v) then [r] else [])
      ∧ notOnChainHarvest s1 `prefix_of` notOnChainHarvest s
      ∧ (off_chain_vault chain v →
         findIndex (matches v) (stratsToHarvest s1) = Some r
         ∧ ∃ e, stratsToHarvest s1 !! r = Some (Some e)
                ∧ IStratToHrvst.id e = IVault.id v
                ∧ IStratToHrvst.strategy e = IVault.strategy v).
Proof.
  intros s. subst s. unfold SyncVaults, manager_start.
  cbn [stratsToHarvest encountered hits added_count removed_count notOnChainHarvest].
  destruct (forEach_vault_worklist chain vaults (mkState l enc h 0 0 [] false))
    as (Hlen & Hvalid).
  split; [exact Hlen|]. split; [apply Hvalid; constructor|].
  intros pre v post ->. cbn zeta. split; [|split].
  - rewrite forEach_vault_snoc. apply sync_vault_reference.
  - rewrite (cons_middle v pre post), app_assoc.
    rewrite (forEach_vault_app chain (pre ++ [v]) post).
    apply forEach_vault_worklist_prefix.
  - rewrite forEach_vault_snoc.
    destruct (sync_vault_reference chain v
                (forEach_vault chain pre (mkState l enc h 0 0 [] false))) as (_ & Hslot).
    intros (Hc & Hact & _).
    specialize (Hslot Hc Hact). split; [exact Hslot|].
    apply findIndex_Some in Hslot as [(o & Ho & Hm) _].
    apply matches_Some in Hm as (e & -> & Hstrat & Hid). by exists e.
Qed.

(** An instance: the vault of a denied token, whose entry is created in the
    slot behind the entry the list starts with. *)
Lemma worklist_of_a_pass_witness :
  let v := vault_v1 "mooDenied" "0xA" "active" 100 in
  let s1 := SyncVaults bsc_on_chain [v] (manager_start [Some entry_v2] ∅ Hits.empty) in
  off_chain_vault bsc_on_chain v
  ∧ notOnChainHarvest s1 = [1%nat]
  ∧ findIndex (matches v) (stratsToHarvest s1) = Some 1%nat.
Proof.
  intros v s1.
  assert (Hoff : off_chain_vault bsc_on_chain v) by (by apply (bool_decide_unpack _)).
  destruct (worklist_of_a_pass bsc_on_chain [v] [Some entry_v2] ∅ Hits.empty)
    as (_ & _ & Hstep).
  destruct (Hstep [] v [] eq_refl) as (Hrefs & _ & Hslot).
  split; [exact Hoff|]. split; [exact Hrefs|]. exact (proj1 (Hslot Hoff)).
Defined.

(** ** What a run leaves in an entry *)

Section SlotsKeep.

Variable R : IStratToHrvst.t → IStratToHrvst.t → Prop.
Hypothesis R_refl : ∀ x, R x x.
Hypothesis R_trans : ∀ x y z, R x y → R y z → R x z.
Hypothesis R_updated : ∀ chain vault st, R st (harvested vault (routed chain vault st)).

Lemma slots_keep_refl (l : list (option IStratToHrvst.t)) : slots_keep R l l.
Proof. intros i a Hi. exists a. split; [done|]. by destruct a. Qed.

Lemma slots_keep_trans (l1 l2 l3 : list (option IStratToHrvst.t)) :
  slots_keep R l1 l2 → slots_keep R l2 l3 → slots_keep R l1 l3.
Proof.
  intros H12 H23 i a Hi. destruct (H12 i a Hi) as (b & Hb & Hab).
  destruct (H23 i b Hb) as (c & Hc & Hbc). exists c. split; [done|].
  destruct a as [x|], b as [y|], c as [z|]; try done. by eapply R_trans.
Qed.

Lemma slots_keep_insert (l : list (option IStratToHrvst.t)) (r : nat)
    (a b : option IStratToHrvst.t) :
  l !! r = Some a →
  match a, b with
  | _, None => True
  | Some x, Some y => R x y
  | None, Some _ => False
  end →
  slots_keep R l (<[r := b]> l).
Proof.
  intros Hr Hab i c Hi. destruct (decide (i = r)) as [->|Hne].
  - exists b. rewrite list_lookup_insert_eq by (by eapply lookup_lt_Some).
    split; [done|]. assert (c = a) as -> by congruence. exact Hab.
  - exists c. rewrite list_lookup_insert_ne by done. split; [done|]. by destruct c.
Qed.

Lemma sync_vault_slots_keep (chain : IChain.t) (vault : IVault.t) (s : State) :
  slots_keep R (stratsToHarvest s) (stratsToHarvest (sync_vault chain vault s)).
Proof.
  destruct (decide (IChain.id chain = IVault.chain vault)) as [Hc|Hc].
  - pose proof (sync_vault_spec chain vault s Hc) as Hs.
    destruct (findIndex _ _) as [r|]; [destruct Hs as (st & Hr & _ & _ & Hs)|];
      rewrite Hs; destruct (inactive _); cbn [stratsToHarvest].
    + by eapply slots_keep_insert.
    + eapply slots_keep_insert; [done|]. apply R_updated.
    + apply slots_keep_refl.
    + intros i a Hi. exists a. rewrite lookup_app_l by (by eapply lookup_lt_Some).
      split; [done|]. by destruct a.
  - rewrite sync_vault_other by done. apply slots_keep_refl.
Qed.

Lemma forEach_vault_slots_keep (chain : IChain.t) (vaults : list IVault.t) (s : State) :
  slots_keep R (stratsToHarvest s) (stratsToHarvest (forEach_vault chain vaults s)).
Proof.
  revert s. induction vaults as [|v vaults IH]; intros s; [apply slots_keep_refl|].
  rewrite forEach_vault_cons. eapply slots_keep_trans; [|apply IH].
  apply sync_vault_slots_keep.
Qed.

Lemma foldl_run_chain_slots_keep (estimateGas : IChain.t → nat → bool)
    (chains : list IChain.t) (vaults : list IVault.t) (c : Coordinator) :
  slots_keep R (co_strats c) (co_strats (foldl (run_chain estimateGas vaults) c chains)).
Proof.
  revert c. induction chains as [|ch chains IH]; intros c; simpl; [apply slots_keep_refl|].
  eapply slots_keep_trans; [|apply IH]. rewrite run_chain_strats.
  apply (forEach_vault_slots_keep ch vaults
           (mkState (co_strats c) (co_encountered c) (co_hits c) 0 0 [] false)).
Qed.

Lemma sweep_slots_keep (enc : gset string) (l : list (option IStratToHrvst.t)) (h : Hits.t) :
  slots_keep R l (sweep enc l h).1.
Proof.
  intros i a Hi. rewrite sweep_lookup, Hi. cbn [fmap option_fmap option_map].
  eexists. split; [done|]. destruct a as [x|]; [|done]. by case_bool_decide.
Qed.

Lemma reconcile_slots_keep (estimateGas : IChain.t → nat → bool)
    (chains : list IChain.t) (vaults : list IVault.t) (strats : list IStratToHrvst.t) :
  slots_keep R (Some <$> strats) (co_strats (reconcile estimateGas chains vaults strats)).
Proof.
  unfold reconcile. rewrite run_sweep_strats.
  eapply slots_keep_trans; [|apply sweep_slots_keep].
  exact (foldl_run_chain_slots_keep estimateGas chains vaults
           (mkCoordinator (Some <$> strats) ∅ Hits.empty false)).
Qed.

End SlotsKeep.

Lemma same_entry_updated (chain : IChain.t) (vault : IVault.t) (st : IStratToHrvst.t) :
  same_entry st (harvested vault (routed chain vault st)).
Proof.
  unfold same_entry.
  destruct (harvested_fields vault (routed chain vault st)) as (-> & -> & -> & -> & _).
  destruct (routed_fields chain vault st) as (-> & -> & -> & -> & _).
  unfold harvested, routed.
  by destruct (switch_needed _ _ _), (bool_decide _).
Qed.

(** X6. A run changes nothing in an entry but [noOnChainHrvst] and
    [lastHarvest]: an entry of the loaded list that is still in its slot after
    the run has its id, chain, [earnContractAddress], [earnedToken] and
    [strategy] as loaded. *)
Theorem run_keeps_identity_and_strategy (estimateGas : IChain.t → nat → bool)
    (chains : list IChain.t) (vaults : list IVault.t) (strats : list IStratToHrvst.t)
    (i : nat) (e e' : IStratToHrvst.t) :
  strats !! i = Some e →
  co_strats (reconcile estimateGas chains vaults strats) !! i = Some (Some e') →
  same_entry e e'.
Proof.
  intros Hi Hi'.
  destruct (reconcile_slots_keep same_entry) with (estimateGas := estimateGas)
    (chains := chains) (vaults := vaults) (strats := strats) (i := i) (a := Some e)
    as (b & Hb & Hab).
  - by intros x.
  - unfold same_entry. intros x y z ? ?. intuition congruence.
  - apply same_entry_updated.
  - by rewrite list_lookup_fmap, Hi.
  - rewrite Hi' in Hb. injection Hb as <-. exact Hab.
Qed.

Lemma run_keeps_identity_and_strategy_witness :
  let before := entry_v1 "mooOne" "0xA" 100 None in
  let after := entry_v1 "mooOne" "0xA" 150 None in
  same_entry before after.
Proof.
  intros before after.
  apply (run_keeps_identity_and_strategy no_estimate [bsc_on_chain]
           [vault_v1 "mooOne" "0xA" "active" 150] [before] 0%nat before after);
    reflexivity.
Defined.

(** ** What a run logs *)

Lemma sync_vault_hits_pass (P : Hits.t → Prop) (chain : IChain.t) (vault : IVault.t)
    (s : State) :
  (∀ id k h, pass_kind k → P h → P (Hits.add id k h)) →
  P (hits s) → P (hits (sync_vault chain vault s)).
Proof.
  intros Hadd HP. destruct (decide (IChain.id chain = IVault.chain vault)) as [Hc|Hc].
  - pose proof (sync_vault_spec chain vault s Hc) as Hs.
    destruct (findIndex _ _); [destruct Hs as (st & _ & _ & _ & Hs)|];
      rewrite Hs; destruct (inactive _); cbn [hits]; try done.
    + apply Hadd; [|done]. right; by left.
    + destruct (switch_needed _ _ _); [|done]. apply Hadd; [|done]. right; by right.
    + apply Hadd; [|done]. by left.
  - by rewrite sync_vault_other.
Qed.

Lemma forEach_vault_hits_pass (P : Hits.t → Prop) (chain : IChain.t)
    (vaults : list IVault.t) (s : State) :
  (∀ id k h, pass_kind k → P h → P (Hits.add id k h)) →
  P (hits s) → P (hits (forEach_vault chain vaults s)).
Proof.
  intros Hadd. revert s.
  induction vaults as [|v vaults IH]; intros s HP; [done|].
  rewrite forEach_vault_cons. apply IH. by apply sync_vault_hits_pass.
Qed.

Lemma foldl_run_chain_hits_pass (P : Hits.t → Prop) (estimateGas : IChain.t → nat → bool)
    (chains : list IChain.t) (vaults : list IVault.t) (c : Coordinator) :
  (∀ id k h, pass_kind k → P h → P (Hits.add id k h)) →
  P (co_hits c) → P (co_hits (foldl (run_chain estimateGas vaults) c chains)).
Proof.
  intros Hadd. revert c. induction chains as [|ch chains IH]; intros c Hc; simpl; [done|].
  apply IH. rewrite run_chain_hits. by apply forEach_vault_hits_pass.
Qed.

Lemma sweep_hits_decomissioned (P : Hits.t → Prop) (enc : gset string)
    (l : list (option IStratToHrvst.t)) (h : Hits.t) :
  (∀ id h, P h → P (Hits.add id removed_decomissioned h)) →
  P h → P (sweep enc l h).2.
Proof.
  intros Hadd. revert h. induction l as [|[st|] l IH]; intros h HP; simpl; [done|..].
  - case_bool_decide.
    + specialize (IH h HP). by destruct (sweep enc l h).
    + specialize (IH _ (Hadd (IStratToHrvst.id st) h HP)). by destruct (sweep enc l _).
  - specialize (IH h HP). by destruct (sweep enc l h).
Qed.

Lemma add_other_kind (id : string) (k k' : HitType) (h : Hits.t) :
  k ≠ k' →
  (∀ id', k' ∉ Hits.kinds id' h) → ∀ id', k' ∉ Hits.kinds id' (Hits.add id k h).
Proof.
  intros Hk Hh id'. destruct (decide (id = "")) as [->|Hid]; [apply Hh|].
  destruct (Hits.inherited id) eqn:Hown.
  { rewrite HitsFacts.add_inherited by done. apply Hh. }
  destruct (decide (id' = id)) as [->|Hne].
  - rewrite HitsFacts.kinds_add by done. rewrite elem_of_app, list_elem_of_singleton.
    intros [?|?]; [by eapply Hh|congruence].
  - rewrite HitsFacts.kinds_add_ne by done. apply Hh.
Qed.

(** X7. No run ever logs ['strategy update']: the lookup of [SyncVaults]
    matches on the strategy, so the comparison of line 122 never finds a
    difference. *)
Theorem strategy_update_is_never_logged (estimateGas : IChain.t → nat → bool)
    (chains : list IChain.t) (vaults : list IVault.t) (strats : list IStratToHrvst.t)
    (id : string) :
  strategy_update ∉ Hits.kinds id (co_hits (reconcile estimateGas chains vaults strats)).
Proof.
  revert id. unfold reconcile. rewrite run_sweep_hits.
  apply (sweep_hits_decomissioned (λ h, ∀ id, strategy_update ∉ Hits.kinds id h)).
  { intros id h. by apply add_other_kind. }
  unfold run_chains.
  apply (foldl_run_chain_hits_pass (λ h, ∀ id, strategy_update ∉ Hits.kinds id h)).
  - intros id k h [->|[->| ->]]; by apply add_other_kind.
  - intros id. cbn. apply not_elem_of_nil.
Qed.

(** X8. The change log a run writes is not empty and has at most one record
    for an id. *)
Theorem written_log_has_one_record_per_id (estimateGas : IChain.t → nat → bool)
    (chains : list IChain.t) (fetch : FetchResult) (load : RequireResult)
    (log : list Hit) :
  stratsSync_json (written (main estimateGas chains fetch load)) = Some log →
  log ≠ [] ∧ NoDup (hit_id <$> log).
Proof.
  intros Hlog.
  assert (Hc : ∀ vaults strats,
    stratsSync_json (written (Completed (reconcile estimateGas chains vaults strats)))
    = Some log → log ≠ [] ∧ NoDup (hit_id <$> log)).
  { intros vaults strats. cbn [written stratsSync_json].
    case_bool_decide as Hlen; [|done]. intros [= <-]. split.
    - intros Hnil. apply (f_equal length) in Hnil.
      rewrite HitsFacts.values_length in Hnil.
      unfold Hits.keys_length in Hlen. simpl in Hnil. lia.
    - rewrite HitsFacts.values_ids, HitsFacts.keys_Permutation.
      apply (reconcile_hits estimateGas (λ h, NoDup (hit_id <$> h))).
      + intros. by apply add_NoDup.
      + constructor. }
  unfold main in Hlog.
  destruct fetch as [|ok body [vaults|]]; try done.
  - destruct (negb (ok && body)); [done|].
    destruct load as [strats|code]; [by eapply Hc|].
    destruct (negb _); [done|]. by eapply Hc.
  - by destruct (negb (ok && body)).
Qed.

Lemma written_log_has_one_record_per_id_witness :
  [mkHit "v1" (One added)] ≠ [] ∧ NoDup (hit_id <$> [mkHit "v1" (One added)]).
Proof.
  apply (written_log_has_one_record_per_id no_estimate [bsc_on_chain]
           (Fetched true true (Some [vault_v1 "mooOne" "0xA" "active" 100]))
           (Required [])).
  reflexivity.
Defined.

(** ** What a run saves *)

(** X9. Every entry of the list a run ends with belongs to a vault that the
    run saw active: the catalog has a record with the entry's id, neither
    ['eol'] nor ['paused'], on one of the reconciled chains. *)
Theorem saved_entries_have_active_vaults (estimateGas : IChain.t → nat → bool)
    (chains : list IChain.t) (vaults : list IVault.t) (strats : list IStratToHrvst.t)
    (e : IStratToHrvst.t) :
  e ∈ compact (co_strats (reconcile estimateGas chains vaults strats)) →
  ∃ v, v ∈ vaults ∧ IVault.id v = IStratToHrvst.id e
       ∧ (IVault.status v ≠ "eol" ∧ IVault.status v ≠ "paused")
       ∧ ∃ chain, chain ∈ chains ∧ IChain.id chain = IVault.chain v.
Proof.
  unfold reconcile. rewrite run_sweep_strats, sweep_compact.
  intros [Henc _]%list_elem_of_filter. by apply run_chains_encountered in Henc.
Qed.

Lemma saved_entries_have_active_vaults_witness :
  ∃ v, v ∈ [vault_v1 "mooOne" "0xA" "active" 100]
       ∧ IVault.id v = IStratToHrvst.id (entry_v1 "mooOne" "0xA" 100 None)
       ∧ (IVault.status v ≠ "eol" ∧ IVault.status v ≠ "paused")
       ∧ ∃ chain, chain ∈ [bsc_on_chain] ∧ IChain.id chain = IVault.chain v.
Proof.
  apply (saved_entries_have_active_vaults no_estimate [bsc_on_chain]
           [vault_v1 "mooOne" "0xA" "active" 100] [entry_v1 "mooOne" "0xA" 100 None; entry_v2]).
  by left.
Defined.

(** X10. Every active vault of a reconciled chain has its entry in the list a
    run ends with, provided no other record of the catalog has its strategy
    and id and no other reconciled chain its chain id: an entry with the
    vault's id and strategy, a [lastHarvest] not smaller than the vault's
    and, on a chain with on-chain harvesting, a routing flag that is the
    negation of the vault's eligibility. *)
Theorem active_vault_has_settled_entry (estimateGas : IChain.t → nat → bool)
    (chains : list IChain.t) (vaults : list IVault.t) (strats : list IStratToHrvst.t)
    (chain : IChain.t) (v : IVault.t) :
  chain ∈ chains → v ∈ vaults →
  IChain.id chain = IVault.chain v →
  IVault.status v ≠ "eol" ∧ IVault.status v ≠ "paused" →
  (∀ w, w ∈ vaults → same_key v w → w = v) →
  (∀ c, c ∈ chains → IChain.id c = IChain.id chain → c = chain) →
  ∃ st,
    st ∈ compact (co_strats (reconcile estimateGas chains vaults strats))
    ∧ IStratToHrvst.id st = IVault.id v
    ∧ IStratToHrvst.strategy st = IVault.strategy v
    ∧ IVault.lastHarvest v ≤ IStratToHrvst.lastHarvest st
    ∧ (IChain.hasOnChainHarvesting chain = true →
       truthy (IStratToHrvst.noOnChainHrvst st) = negb (eligible chain v)).
Proof.
  intros Hc Hv Hcv Hact%inactive_false Hkey Hchain.
  destruct (reconcile_first_match (settled chain v) estimateGas chains vaults strats
              chain v Hc Hv Hcv Hact Hkey Hchain) as (r & st & Hfind & Hr & Hset).
  { intros st. apply update_idempotent. }
  apply findIndex_Some in Hfind as [(o & Ho & Hm) _].
  assert (o = Some st) as -> by congruence.
  apply matches_Some in Hm as (? & [= <-] & Hstrat & Hid).
  apply updated_same in Hset as [Hsw Hlt].
  exists st. split; [|split; [done|split; [done|split]]].
  - unfold compact. apply list_elem_of_omap. exists (Some st). split; [|done].
    apply list_elem_of_lookup. by exists r.
  - apply bool_decide_eq_false in Hlt. lia.
  - intros Hon. unfold switch_needed in Hsw. rewrite onChainHarvest_eligible, Hon in Hsw.
    destruct (eligible chain v), (truthy (IStratToHrvst.noOnChainHrvst st)); done.
Qed.

Lemma active_vault_has_settled_entry_witness :
  let vault := vault_v1 "mooDenied" "0xA" "active" 150 in
  ∃ st,
    st ∈ compact (co_strats (reconcile no_estimate [bsc_on_chain] [vault]
                               [entry_v1 "mooDenied" "0xA" 100 None]))
    ∧ IStratToHrvst.id st = IVault.id vault
    ∧ IStratToHrvst.strategy st = IVault.strategy vault
    ∧ IVault.lastHarvest vault ≤ IStratToHrvst.lastHarvest st
    ∧ (IChain.hasOnChainHarvesting bsc_on_chain = true →
       truthy (IStratToHrvst.noOnChainHrvst st) = negb (eligible bsc_on_chain vault)).
Proof.
  intros vault.
  apply (active_vault_has_settled_entry no_estimate [bsc_on_chain] [vault]
           [entry_v1 "mooDenied" "0xA" 100 None] bsc_on_chain vault).
  - by left.
  - by left.
  - reflexivity.
  - by split.
  - intros w Hw%list_elem_of_singleton _. exact Hw.
  - intros c Hc%list_elem_of_singleton _. exact Hc.
Defined.

Lemma sync_vault_clean_hits (chain : IChain.t) (vault : IVault.t) (s : State) :
  dirty (sync_vault chain vault s) = false →
  hits (sync_vault chain vault s) = hits s ∧ dirty s = false.
Proof.
  destruct (decide (IChain.id chain = IVault.chain vault)) as [Hc|Hc];
    [|by rewrite sync_vault_other].
  pose proof (sync_vault_spec chain vault s Hc) as Hs.
  destruct (findIndex _ _) as [r|]; [destruct Hs as (st & _ & _ & _ & Hs)|];
    rewrite Hs; destruct (inactive _); cbn [hits dirty]; try done.
  intros [[Hd Hsw]%orb_false_iff _]%orb_false_iff. by rewrite Hsw.
Qed.

Lemma forEach_vault_clean_hits (chain : IChain.t) (vaults : list IVault.t) (s : State) :
  dirty (forEach_vault chain vaults s) = false →
  hits (forEach_vault chain vaults s) = hits s ∧ dirty s = false.
Proof.
  revert s. induction vaults as [|v vaults IH]; intros s; [done|].
  rewrite forEach_vault_cons. intros Hd.
  destruct (IH _ Hd) as (Hh & Hd'). destruct (sync_vault_clean_hits _ _ _ Hd') as (Hh' & ?).
  split; [congruence|done].
Qed.

Lemma run_chain_clean (estimateGas : IChain.t → nat → bool) (vaults : list IVault.t)
    (c : Coordinator) (chain : IChain.t) :
  co_dirty (run_chain estimateGas vaults c chain) = false →
  co_strats (run_chain estimateGas vaults c chain) = co_strats c
  ∧ co_hits (run_chain estimateGas vaults c chain) = co_hits c
  ∧ co_dirty c = false.
Proof.
  rewrite run_chain_strats, run_chain_hits. unfold run_chain, SyncVaults.
  cbn [co_dirty stratsToHarvest encountered hits added_count removed_count
       notOnChainHarvest].
  set (s := mkState (co_strats c) (co_encountered c) (co_hits c) 0 0 [] false).
  intros Hd.
  assert (Hd1 : co_dirty c || dirty (forEach_vault chain vaults s) = false).
  { destruct (notOnChainHarvest (forEach_vault chain vaults s)); [done|].
    by apply orb_false_iff in Hd as [? _]. }
  apply orb_false_iff in Hd1 as [Hc Hs].
  destruct (forEach_vault_clean_hits chain vaults s Hs) as (Hh & _).
  pose proof (forEach_vault_clean chain vaults s Hs) as Hl.
  by rewrite Hl, Hh.
Qed.

Lemma foldl_run_chain_clean (estimateGas : IChain.t → nat → bool)
    (chains : list IChain.t) (vaults : list IVault.t) (c : Coordinator) :
  co_dirty (foldl (run_chain estimateGas vaults) c chains) = false →
  co_strats (foldl (run_chain estimateGas vaults) c chains) = co_strats c
  ∧ co_hits (foldl (run_chain estimateGas vaults) c chains) = co_hits c
  ∧ co_dirty c = false.
Proof.
  revert c. induction chains as [|ch chains IH]; intros c; simpl; [done|].
  intros Hd. destruct (IH _ Hd) as (Hl & Hh & Hd').
  destruct (run_chain_clean _ _ _ _ Hd') as (Hl' & Hh' & ?).
  split; [congruence|]. split; [congruence|done].
Qed.

(** X11. When a run completes without saving the strategy list, no pass has
    changed the list or logged anything: all that the run has done is to
    remove, in memory, the entries that were not encountered, and every
    record of the change log it writes is ['removed, decomissioned']. *)
Theorem unsaved_run_only_decommissions (estimateGas : IChain.t → nat → bool)
    (chains : list IChain.t) (vaults : list IVault.t) (strats : list IStratToHrvst.t) :
  stratsToHrvst_json (written (Completed (reconcile estimateGas chains vaults strats)))
  = None →
  co_strats (run_chains estimateGas chains vaults strats) = Some <$> strats
  ∧ co_hits (run_chains estimateGas chains vaults strats) = []
  ∧ ∀ id k, k ∈ Hits.kinds id (co_hits (reconcile estimateGas chains vaults strats)) →
            k = removed_decomissioned.
Proof.
  cbn [written stratsToHrvst_json]. unfold reconcile. rewrite run_sweep_dirty.
  destruct (co_dirty (run_chains estimateGas chains vaults strats)) eqn:Hd; [done|].
  intros _. unfold run_chains in Hd.
  destruct (foldl_run_chain_clean _ _ _ _ Hd) as (Hl & Hh & _).
  cbn [co_strats co_hits] in Hl, Hh. fold (run_chains estimateGas chains vaults strats) in Hl, Hh.
  split; [done|]. split; [done|]. rewrite run_sweep_hits, Hh.
  apply (sweep_hits_decomissioned
           (λ h, ∀ id k, k ∈ Hits.kinds id h → k = removed_decomissioned)).
  - intros id h Hall id' k. destruct (decide (id = "")) as [->|Hid]; [apply Hall|].
    destruct (Hits.inherited id) eqn:Hown.
    { rewrite HitsFacts.add_inherited by done. apply Hall. }
    destruct (decide (id' = id)) as [->|Hne].
    + rewrite HitsFacts.kinds_add by done.
      intros [?|Hk]%elem_of_app; [by eapply Hall|].
      by apply list_elem_of_singleton in Hk.
    + rewrite HitsFacts.kinds_add_ne by done. apply Hall.
  - intros id k Hk. by apply elem_of_nil in Hk.
Qed.

Lemma unsaved_run_only_decommissions_witness :
  let kept := entry_v1 "mooOne" "0xA" 100 None in
  let vaults := [vault_v1 "mooOne" "0xA" "active" 100] in
  co_strats (run_chains no_estimate [bsc_on_chain] vaults [kept; entry_v2])
  = Some <$> [kept; entry_v2]
  ∧ co_hits (run_chains no_estimate [bsc_on_chain] vaults [kept; entry_v2]) = []
  ∧ ∀ id k,
      k ∈ Hits.kinds id (co_hits (reconcile no_estimate [bsc_on_chain] vaults [kept; entry_v2])) →
      k = removed_decomissioned.
Proof.
  intros kept vaults.
  apply (unsaved_run_only_decommissions no_estimate [bsc_on_chain] vaults [kept; entry_v2]).
  reflexivity.
Defined.

Lemma run_chain_no_vaults (estimateGas : IChain.t → nat → bool) (c : Coordinator)
    (chain : IChain.t) :
  run_chain estimateGas [] c chain = c.
Proof. destruct c as [l enc h d]. unfold run_chain. simpl. by rewrite orb_false_r. Qed.

Lemma run_chains_no_vaults (estimateGas : IChain.t → nat → bool) (chains : list IChain.t)
    (strats : list IStratToHrvst.t) :
  run_chains estimateGas chains [] strats
  = mkCoordinator (Some <$> strats) ∅ Hits.empty false.
Proof.
  unfold run_chains. generalize (mkCoordinator (Some <$> strats) ∅ Hits.empty false).
  induction chains as [|ch chains IH]; intros c; simpl; [done|].
  by rewrite run_chain_no_vaults.
Qed.

(** X12. A run over an empty catalog removes every entry in memory and
    records each removal whose id is one under which [Hits.add] stores a
    record (not the empty string, not the name of an inherited property), but
    it does not save the strategy list: the file keeps all the entries. *)
Theorem empty_catalog_empties_nothing_on_disk (estimateGas : IChain.t → nat → bool)
    (chains : list IChain.t) (strats : list IStratToHrvst.t) :
  compact (co_strats (reconcile estimateGas chains [] strats)) = []
  ∧ persisted (Required strats)
      (main estimateGas chains (Fetched true true (Some [])) (Required strats))
    = Some strats
  ∧ ∀ e, e ∈ strats → Hits.ordinary (IStratToHrvst.id e) →
         removed_decomissioned
         ∈ Hits.kinds (IStratToHrvst.id e) (co_hits (reconcile estimateGas chains [] strats)).
Proof.
  assert (Hdirty : co_dirty (reconcile estimateGas chains [] strats) = false).
  { unfold reconcile. by rewrite run_sweep_dirty, run_chains_no_vaults. }
  split; [|split].
  - unfold reconcile. rewrite run_sweep_strats, sweep_compact, run_chains_no_vaults.
    cbn [co_encountered co_strats]. induction (compact (Some <$> strats)) as [|x l IH];
      [done|]. rewrite filter_cons_False; [exact IH|]. apply not_elem_of_empty.
  - unfold persisted. cbn [main negb andb written stratsToHrvst_json].
    by rewrite Hdirty.
  - intros e He [Hid Hown]%HitsFacts.ordinary_stored.
    unfold reconcile. rewrite run_sweep_hits, run_chains_no_vaults.
    cbn [co_encountered co_strats co_hits].
    apply sweep_logged; [|apply not_elem_of_empty|done..].
    apply list_elem_of_fmap. by exists e.
Qed.

Lemma empty_catalog_empties_nothing_on_disk_witness :
  removed_decomissioned
  ∈ Hits.kinds "v2" (co_hits (reconcile no_estimate [bsc_on_chain] [] [entry_v2])).
Proof.
  apply (proj2 (proj2 (empty_catalog_empties_nothing_on_disk no_estimate [bsc_on_chain]
                         [entry_v2])) entry_v2).
  - by left.
  - by apply (bool_decide_unpack _).
Defined.

Lemma run_chain_dirty (estimateGas : IChain.t → nat → bool) (vaults : list IVault.t)
    (c : Coordinator) (chain : IChain.t) :
  let s := SyncVaults chain vaults
             (manager_start (co_strats c) (co_encountered c) (co_hits c)) in
  co_dirty (run_chain estimateGas vaults c chain)
  = co_dirty c || dirty s || AddGasLimits estimateGas chain (notOnChainHarvest s).
Proof.
  intros s. subst s. unfold run_chain, manager_start. cbn [co_dirty].
  destruct (notOnChainHarvest _); [|done]. cbn. by rewrite orb_false_r.
Qed.

Lemma run_chains_snoc (estimateGas : IChain.t → nat → bool) (chains : list IChain.t)
    (chain : IChain.t) (vaults : list IVault.t) (strats : list IStratToHrvst.t) :
  run_chains estimateGas (chains ++ [chain]) vaults strats
  = run_chain estimateGas vaults (run_chains estimateGas chains vaults strats) chain.
Proof. unfold run_chains. by rewrite foldl_app. Qed.

(** X13. The strategy list is saved exactly when, on some chain, the pass of
    [SyncVaults] has changed the list or one of the gas estimations started
    for its off-chain worklist has been fulfilled. *)
Theorem list_saved_iff_changed_or_estimated (estimateGas : IChain.t → nat → bool)
    (chains : list IChain.t) (vaults : list IVault.t) (strats : list IStratToHrvst.t) :
  co_dirty (reconcile estimateGas chains vaults strats) = true ↔
  ∃ pre chain post, chains = pre ++ chain :: post
    ∧ let c := run_chains estimateGas pre vaults strats in
      let s := SyncVaults chain vaults
                 (manager_start (co_strats c) (co_encountered c) (co_hits c)) in
      dirty s = true ∨ AddGasLimits estimateGas chain (notOnChainHarvest s) = true.
Proof.
  unfold reconcile. rewrite run_sweep_dirty.
  induction chains as [|ch chains IH] using rev_ind.
  - split; [done|]. intros (pre & c & post & Heq & _). by destruct pre.
  - rewrite run_chains_snoc, run_chain_dirty, !orb_true_iff, IH. split.
    + intros [[(pre & c & post & -> & H)|Hd]|Hg].
      * exists pre, c, (post ++ [ch]). by rewrite <- app_assoc.
      * exists chains, ch, []. split; [done|]. by left.
      * exists chains, ch, []. split; [done|]. by right.
    + intros (pre & c & post & Heq & H).
      destruct post as [|p post _] using rev_ind.
      * apply app_inj_tail in Heq as [-> ->]. destruct H as [H|H]; [left; by right|by right].
      * rewrite app_comm_cons, app_assoc in Heq. apply app_inj_tail in Heq as [-> ->].
        left; left. by exists pre, c, post.
Qed.

Lemma list_saved_iff_changed_or_estimated_witness :
  let entry := IStratToHrvst.mk "v1" "polygon" "0xE1" "mooOne" "0xA" 100 None in
  let vault := IVault.mk "v1" "polygon" "0xE1" "mooOne" "0xA" "active" 100 in
  co_dirty (reconcile every_estimate [polygon_off_chain] [vault] [entry]) = true.
Proof.
  intros entry vault.
  apply (list_saved_iff_changed_or_estimated every_estimate [polygon_off_chain] [vault]
           [entry]).
  exists [], polygon_off_chain, []. split; [reflexivity|]. right. reflexivity.
Defined.

(** ** The task syncer *)

Lemma filterForActiveVaults_snoc (deny : gset string) (l : list VaultConfig.t)
    (v : VaultConfig.t) :
  filterForActiveVaults deny (l ++ [v])
  = if passes_filter deny v
    then assign (VaultConfig.earnedToken v) (VaultConfig.earnedTokenAddress v)
           (filterForActiveVaults deny l)
    else filterForActiveVaults deny l.
Proof. unfold filterForActiveVaults. by rewrite foldl_app. Qed.

Lemma filterForActiveVaults_lookup (deny : gset string) (l : list VaultConfig.t)
    (t : string) :
  filterForActiveVaults deny l !! t
  = if bool_decide (t = "__proto__") then None
    else VaultConfig.earnedTokenAddress
           <$> last (filter (λ v, passes_filter deny v = true
                                  ∧ VaultConfig.earnedToken v = t) l).
Proof.
  induction l as [|v l IH] using rev_ind; [by case_bool_decide|].
  rewrite filterForActiveVaults_snoc, filter_app.
  destruct (passes_filter deny v) eqn:Hp.
  - unfold assign. destruct (decide (VaultConfig.earnedToken v = t)) as [Ht|Ht].
    + rewrite filter_cons_True by done. rewrite filter_nil, last_snoc. subst t.
      case_bool_decide; [done|]. by rewrite lookup_insert_eq.
    + rewrite filter_cons_False by (by intros [_ ?]).
      rewrite filter_nil, app_nil_r.
      destruct (bool_decide (VaultConfig.earnedToken v = "__proto__")); [exact IH|].
      rewrite lookup_insert_ne by done. exact IH.
  - rewrite filter_cons_False by (intros [? _]; congruence).
    rewrite filter_nil, app_nil_r. exact IH.
Qed.

Lemma filter_passes_denied (deny : gset string) (l : list VaultConfig.t) (t : string) :
  t ∈ deny →
  filter (λ v, passes_filter deny v = true ∧ VaultConfig.earnedToken v = t) l = [].
Proof.
  intros Hdeny. induction l as [|v l IH]; [done|].
  rewrite filter_cons_False; [exact IH|]. intros [Hp <-].
  unfold passes_filter in Hp. rewrite bool_decide_true in Hp by done.
  by rewrite andb_false_r in Hp.
Qed.

(** X14. [_filterForActiveVaults] maps a token to the address given by the
    last record of the list that has this [earnedToken], an id not ending in
    ['eol'] and a token outside the deny-list, and has no key for a token
    without such a record; the token ["__proto__"] is never a key, whatever
    the list holds, and neither is a denied token. *)
Theorem filterForActiveVaults_last_wins (deny : gset string) (l : list VaultConfig.t)
    (t : string) :
  filterForActiveVaults deny l !! t
  = (if bool_decide (t = "__proto__") then None
     else VaultConfig.earnedTokenAddress
            <$> last (filter (λ v, passes_filter deny v = true
                                   ∧ VaultConfig.earnedToken v = t) l))
  ∧ (t ∈ deny → filterForActiveVaults deny l !! t = None).
Proof.
  split; [apply filterForActiveVaults_lookup|].
  intros Hdeny. rewrite filterForActiveVaults_lookup, filter_passes_denied by done.
  by case_bool_decide.
Qed.

Lemma filterForActiveVaults_last_wins_witness :
  filterForActiveVaults {["mooDenied"]}
    [VaultConfig.mk "cake" "mooDenied" "0x1"] !! "mooDenied" = None.
Proof.
  apply (proj2 (filterForActiveVaults_last_wins {["mooDenied"]}
                  [VaultConfig.mk "cake" "mooDenied" "0x1"] "mooDenied")).
  set_solver.
Defined.

(** X15. The tasks that [syncVaultHarvesterTasks] creates, in terms of the
    fetched list.  Nothing is created when the response is not [ok] or has no
    [body].  Otherwise a task is created for a token, with an address,
    exactly when the token is not ["__proto__"], the address is that of the
    last record of the list with this token that passes the filter, and no
    existing task has the task id of this address.  So no task is created for
    a denied token, none for a token all of whose records end in ['eol'], and
    none for an address that has its task. *)
Theorem tasks_created_for_missing_only (computeTaskId : string → string)
    (userTaskIds : list string) (deny : gset string) (ok body : bool)
    (vaults : list VaultConfig.t) :
  (ok && body = false →
   syncVaultHarvesterTasks computeTaskId userTaskIds deny ok body vaults = None)
  ∧ (ok && body = true →
     ∃ tasks,
       syncVaultHarvesterTasks computeTaskId userTaskIds deny ok body vaults = Some tasks
       ∧ (∀ t a, tasks !! t = Some a ↔
            t ≠ "__proto__"
            ∧ (∃ v, last (filter (λ v, passes_filter deny v = true
                                       ∧ VaultConfig.earnedToken v = t) vaults) = Some v
                    ∧ VaultConfig.earnedTokenAddress v = a)
            ∧ computeTaskId a ∉ userTaskIds)
       ∧ (∀ t, t ∈ deny → tasks !! t = None)
       ∧ (∀ t, (∀ v, v ∈ vaults → VaultConfig.earnedToken v = t →
                     endsWith (VaultConfig.id v) "eol" = true) →
               tasks !! t = None)
       ∧ (∀ t a, tasks !! t = Some a → computeTaskId a ∉ userTaskIds)).
Proof.
  unfold syncVaultHarvesterTasks. split; intros ->; [done|]. cbn [negb].
  eexists. split; [done|].
  assert (Hiff : ∀ t a,
    findVaultsWithMissingTask computeTaskId userTaskIds
      (filterForActiveVaults deny vaults) !! t = Some a ↔
    t ≠ "__proto__"
    ∧ (∃ v, last (filter (λ v, passes_filter deny v = true
                               ∧ VaultConfig.earnedToken v = t) vaults) = Some v
            ∧ VaultConfig.earnedTokenAddress v = a)
    ∧ computeTaskId a ∉ userTaskIds).
  { intros t a. unfold findVaultsWithMissingTask.
    rewrite map_lookup_filter_Some, filterForActiveVaults_lookup. cbn [snd].
    rewrite elem_of_list_to_set. case_bool_decide as Ht.
    - split; [by intros [? _]|]. by intros [? _].
    - rewrite fmap_Some. split.
      + intros [(v & Hv & ->) Hno]. split; [done|]. split; [by exists v|done].
      + intros (_ & (v & Hv & <-) & Hno). split; [by exists v|done]. }
  split; [exact Hiff|]. split; [|split].
  - intros t Hdeny. apply eq_None_not_Some. intros [a Ha].
    apply Hiff in Ha as (_ & (v & Hv & _) & _).
    by rewrite filter_passes_denied in Hv.
  - intros t Heol. apply eq_None_not_Some. intros [a Ha].
    apply Hiff in Ha as (_ & (v & Hv & _) & _).
    apply last_Some_elem_of, list_elem_of_filter in Hv as [[Hp Ht] Hin].
    unfold passes_filter in Hp. by rewrite (Heol v Hin Ht) in Hp.
  - intros t a Ha. by apply Hiff in Ha as (_ & _ & ?).
Qed.

(** An instance: the vault that has its task, and the vault that has none. *)
Lemma tasks_created_for_missing_only_witness :
  syncVaultHarvesterTasks (λ a, "task-" +:+ a) ["task-0x1"] ∅ false true
    [VaultConfig.mk "cake" "mooCake" "0x1"] = None
  ∧ ∃ tasks,
      syncVaultHarvesterTasks (λ a, "task-" +:+ a) ["task-0x1"] ∅ true true
        [VaultConfig.mk "cake" "mooCake" "0x1"; VaultConfig.mk "bifi" "mooBifi" "0x2"]
      = Some tasks
      ∧ tasks !! "mooBifi" = Some "0x2"
      ∧ tasks !! "mooCake" = None.
Proof.
  split.
  - apply (proj1 (tasks_created_for_missing_only (λ a, "task-" +:+ a) ["task-0x1"] ∅
                    false true [VaultConfig.mk "cake" "mooCake" "0x1"])).
    reflexivity.
  - destruct (proj2 (tasks_created_for_missing_only (λ a, "task-" +:+ a) ["task-0x1"] ∅
                       true true [VaultConfig.mk "cake" "mooCake" "0x1";
                                  VaultConfig.mk "bifi" "mooBifi" "0x2"]) eq_refl)
      as (tasks & Htasks & Hiff & _).
    exists tasks. split; [exact Htasks|]. split.
    + apply Hiff. split; [discriminate|]. split.
      * exists (VaultConfig.mk "bifi" "mooBifi" "0x2"). split; [|reflexivity].
        vm_compute. reflexivity.
      * intros Hin. apply list_elem_of_singleton in Hin. discriminate.
    + apply eq_None_not_Some. intros [a Ha].
      apply Hiff in Ha as (_ & (v & Hv & <-) & Hno).
      vm_compute in Hv. injection Hv as <-. apply Hno. by left.
Defined.

Lemma kept_ids_sublist (l : list IStratToHrvst.t) (l' : list (option IStratToHrvst.t)) :
  length l' = length l →
  slots_keep same_entry (Some <$> l) l' →
  IStratToHrvst.id <$> compact l' `sublist_of` IStratToHrvst.id <$> l.
Proof.
  revert l'. induction l as [|x l IH]; intros [|o l'] Hlen Hkeep; try done.
  assert (Htail : IStratToHrvst.id <$> compact l' `sublist_of` IStratToHrvst.id <$> l).
  { apply IH; [by injection Hlen|]. intros i a Hi. exact (Hkeep (S i) a Hi). }
  destruct (Hkeep 0%nat (Some x) eq_refl) as (b & [= <-] & Hb).
  destruct o as [y|].
  - rewrite compact_cons_Some, !fmap_cons. destruct Hb as (-> & _).
    by apply sublist_skip.
  - rewrite compact_cons_None, fmap_cons. by apply sublist_cons.
Qed.

(** X16. The list a run ends with holds first what is left of the loaded
    entries, in the order in which they were loaded, and after them the
    entries the run has added. *)
Theorem saved_list_keeps_loaded_order (estimateGas : IChain.t → nat → bool)
    (chains : list IChain.t) (vaults : list IVault.t) (strats : list IStratToHrvst.t) :
  let final := co_strats (reconcile estimateGas chains vaults strats) in
  compact final
  = compact (take (length strats) final) ++ compact (drop (length strats) final)
  ∧ IStratToHrvst.id <$> compact (take (length strats) final)
    `sublist_of` IStratToHrvst.id <$> strats.
Proof.
  intros final. split.
  - unfold compact. by rewrite <- omap_app, take_drop.
  - pose proof (reconcile_slots_keep same_entry) as Hkeep.
    specialize (Hkeep (λ x, ltac:(done))).
    assert (Htrans : ∀ x y z, same_entry x y → same_entry y z → same_entry x z).
    { unfold same_entry. intros x y z ? ?. intuition congruence. }
    specialize (Hkeep Htrans same_entry_updated estimateGas chains vaults strats).
    fold final in Hkeep.
    assert (Hlen : (length strats ≤ length final)%nat).
    { destruct (decide (length strats ≤ length final)%nat) as [|Hgt]; [done|].
      destruct strats as [|x strats _] using rev_ind; [simpl in *; lia|].
      destruct (Hkeep (length strats) (Some x)) as (b & Hb & _).
      { by rewrite fmap_app, lookup_app_r, length_fmap, Nat.sub_diag
          by (rewrite length_fmap; lia). }
      apply lookup_lt_Some in Hb. rewrite length_app in Hgt. simpl in Hgt. lia. }
    apply kept_ids_sublist.
    + rewrite length_take. lia.
    + intros i a Hi. destruct (Hkeep i a Hi) as (b & Hb & Hab). exists b. split; [|done].
      rewrite lookup_take_lt; [done|]. apply lookup_lt_Some in Hi.
      by rewrite length_fmap in Hi.
Qed.
